(** * Legal search dashboard: a shallow embedding of [p1.py]

    The script queries four legal-document search engines (Indian Kanoon,
    AustLII, CanLII, Justia), normalises what they return into records and
    renders them, with cross-page numbering for two of the sources.

    The embedding follows the script: result records are a Rocq record,
    [st.session_state] is a record of optional fields (a key may be absent),
    the per-page counts are a [gmap], and the code that talks to the network,
    the browser driver and the user interface runs in a small state-and-error
    monad over an event log, with the outside world as an oracle. *)

From Stdlib Require Import ZArith List String Ascii Bool Lia.
From stdpp Require Import base option list strings gmap pretty.

Open Scope string_scope.
Open Scope Z_scope.

(** ** Strings *)


Definition nl : string := String (ascii_of_nat 10) EmptyString.

(** Python's [str(i)] for an [int]. *)
Definition str_of_int (i : Z) : string := pretty i.

(** [s.startswith(p)] *)
Definition startswith (s p : string) : bool := String.prefix p s.

(** [p in s] *)
Fixpoint contains (p s : string) : bool :=
  String.prefix p s ||
  match s with
  | EmptyString => false
  | String _ s' => contains p s'
  end.

(** [urllib.parse.quote_plus] on the UTF-8 bytes of the keyword: letters,
    digits and [_.-~] are kept, a space becomes [+], every other byte is
    written [%XX] in upper-case hexadecimal. *)
Definition hex_digit (n : N) : ascii :=
  match n with
  | 0%N => "0" | 1%N => "1" | 2%N => "2" | 3%N => "3" | 4%N => "4"
  | 5%N => "5" | 6%N => "6" | 7%N => "7" | 8%N => "8" | 9%N => "9"
  | 10%N => "A" | 11%N => "B" | 12%N => "C" | 13%N => "D" | 14%N => "E"
  | _ => "F"
  end%char.

Definition always_safe (c : ascii) : bool :=
  let n := N_of_ascii c in
  ((65 <=? n) && (n <=? 90) || (97 <=? n) && (n <=? 122) ||
   (48 <=? n) && (n <=? 57) ||
   (n =? 95) || (n =? 46) || (n =? 45) || (n =? 126))%N.

Definition quote_byte (c : ascii) : string :=
  if always_safe c then String c EmptyString
  else if (N_of_ascii c =? 32)%N then "+"
  else let n := N_of_ascii c in
       String "%" (String (hex_digit (n / 16)) (String (hex_digit (n mod 16)) EmptyString)).

Fixpoint quote_plus (s : string) : string :=
  match s with
  | EmptyString => EmptyString
  | String c s' => quote_byte c ++ quote_plus s'
  end.

(** ** Result records

    The dictionaries built by the fetch routines: [title] and [link] are
    always present, [details] only for Indian Kanoon and AustLII. *)

Record result := mk_result {
  title : string;
  link : string;
  details : option string;
}.

(** [res.get("details")] as a condition: present and not empty. *)
Definition details_truthy (res : result) : option string :=
  match details res with
  | Some d => if String.eqb d "" then None else Some d
  | None => None
  end.

(** ** Session state

    [st.session_state] is a key-value store; a field is [None] while its key
    is absent. *)

Record session_state := mk_session {
  keyword : option string;
  ik_page : option Z;
  justia_page : option Z;
  results_fetched : option bool;
  ik_results : option (list result);
  austlii_results : option (list result);
  canlii_results : option (list result);
  justia_results : option (list result);
  ik_counts : option (gmap Z Z);
  justia_counts : option (gmap Z Z);
}.

Definition empty_session : session_state :=
  mk_session None None None None None None None None None None.

Definition set_keyword v s := mk_session (Some v) (ik_page s) (justia_page s) (results_fetched s) (ik_results s) (austlii_results s) (canlii_results s) (justia_results s) (ik_counts s) (justia_counts s).
Definition set_ik_page v s := mk_session (keyword s) (Some v) (justia_page s) (results_fetched s) (ik_results s) (austlii_results s) (canlii_results s) (justia_results s) (ik_counts s) (justia_counts s).
Definition set_justia_page v s := mk_session (keyword s) (ik_page s) (Some v) (results_fetched s) (ik_results s) (austlii_results s) (canlii_results s) (justia_results s) (ik_counts s) (justia_counts s).
Definition set_results_fetched v s := mk_session (keyword s) (ik_page s) (justia_page s) (Some v) (ik_results s) (austlii_results s) (canlii_results s) (justia_results s) (ik_counts s) (justia_counts s).
Definition set_ik_results v s := mk_session (keyword s) (ik_page s) (justia_page s) (results_fetched s) (Some v) (austlii_results s) (canlii_results s) (justia_results s) (ik_counts s) (justia_counts s).
Definition set_austlii_results v s := mk_session (keyword s) (ik_page s) (justia_page s) (results_fetched s) (ik_results s) (Some v) (canlii_results s) (justia_results s) (ik_counts s) (justia_counts s).
Definition set_canlii_results v s := mk_session (keyword s) (ik_page s) (justia_page s) (results_fetched s) (ik_results s) (austlii_results s) (Some v) (justia_results s) (ik_counts s) (justia_counts s).
Definition set_justia_results v s := mk_session (keyword s) (ik_page s) (justia_page s) (results_fetched s) (ik_results s) (austlii_results s) (canlii_results s) (Some v) (ik_counts s) (justia_counts s).
Definition set_ik_counts v s := mk_session (keyword s) (ik_page s) (justia_page s) (results_fetched s) (ik_results s) (austlii_results s) (canlii_results s) (justia_results s) (Some v) (justia_counts s).
Definition set_justia_counts v s := mk_session (keyword s) (ik_page s) (justia_page s) (results_fetched s) (ik_results s) (austlii_results s) (canlii_results s) (justia_results s) (ik_counts s) (Some v).

(** ** Formatting functions *)

(** [enumerate(results, start)] *)
Fixpoint enumerate {A} (start : Z) (l : list A) : list (Z * A) :=
  match l with
  | [] => []
  | x :: l' => (start, x) :: enumerate (start + 1) l'
  end.

(** [range(a, b)] *)
Definition range (a b : Z) : list Z := seqZ a (b - a).

(** [sum(...)]: left to right from 0. *)
Definition sum (l : list Z) : Z := fold_left Z.add l 0.

(** [len(results)] *)
Definition len {A} (l : list A) : Z := Z.of_nat (length l).

(** One turn of the loop of [format_results] and of
    [format_indian_kanoon_results]. *)
Definition entry_with_details (formatted : string) (ir : Z * result) : string :=
  let '(i, res) := ir in
  let formatted :=
    formatted ++ "**" ++ str_of_int i ++ ". " ++ title res ++ "**" ++ nl
              ++ "- Link: " ++ link res ++ nl in
  let formatted :=
    match details_truthy res with
    | Some d => formatted ++ "- Details: " ++ d ++ nl
    | None => formatted
    end in
  formatted ++ nl.

(** One turn of the loop of [format_justia_results]. *)
Definition entry_plain (formatted : string) (ir : Z * result) : string :=
  let '(i, res) := ir in
  formatted ++ "**" ++ str_of_int i ++ ". " ++ title res ++ "**" ++ nl
            ++ "- Link: " ++ link res ++ nl ++ nl.

Definition format_results (results : list result) (source_name : string) : string :=
  let formatted := "### " ++ source_name ++ " Results:" ++ nl ++ nl in
  match results with
  | [] => formatted ++ "No results found." ++ nl
  | _ => fold_left entry_with_details (enumerate 1 results) formatted
  end.

(** [counts.get(page, 0)] *)
Definition count_at (counts : gmap Z Z) (page : Z) : Z := default 0 (counts !! page).

Definition cumulative_before (counts : gmap Z Z) (current_page : Z) : Z :=
  sum (map (count_at counts) (range 1 current_page)).

(** The two paginated formatters read and write the session state; they
    return the new state with the text. *)
Definition format_indian_kanoon_results (results : list result) (current_page : Z)
    (s : session_state) : session_state * string :=
  match results with
  | [] => (s, "No results found.")
  | _ =>
    let counts := match ik_counts s with Some c => c | None => ∅ end in
    let counts := <[current_page := len results]> counts in
    let s := set_ik_counts counts s in
    let cumulative := cumulative_before counts current_page in
    let start_num := cumulative + 1 in
    let formatted :=
      "### Indian Kanoon Results (Page " ++ str_of_int current_page ++ ")" ++ nl ++ nl in
    (s, fold_left entry_with_details (enumerate start_num results) formatted)
  end.

Definition format_justia_results (results : list result) (current_page : Z)
    (s : session_state) : session_state * string :=
  match results with
  | [] => (s, "No results found.")
  | _ =>
    let counts := match justia_counts s with Some c => c | None => ∅ end in
    let counts := <[current_page := len results]> counts in
    let s := set_justia_counts counts s in
    let cumulative := cumulative_before counts current_page in
    let start_num := cumulative + 1 in
    let formatted :=
      "### Justia Results (Page " ++ str_of_int current_page ++ ")" ++ nl ++ nl in
    (s, fold_left entry_plain (enumerate start_num results) formatted)
  end.

(** ** Exceptions, parsed documents and the outside world *)

Inductive exn_class :=
  | RequestException   (* requests.exceptions.RequestException and subclasses *)
  | WebDriverException (* selenium errors, timeouts of explicit waits included *)
  | KeyError
  | TypeError
  | AttributeError
  | OtherException.

Record exn := mk_exn { exn_kind : exn_class; exn_msg : string }.

Definition is_request_exception (e : exn) : bool :=
  match exn_kind e with RequestException => true | _ => false end.

(** What the script asks of a parsed page, one view per query it makes.
    [BeautifulSoup] itself is an external library; a document is given by
    the answers to these queries. *)

(** An element of [soup.find_all("div", class_="result_title")]:
    [result.find("a", href=True)] as text and href, and the text of
    [result.find_next_sibling("div")]. *)
Record ik_div := mk_ik_div {
  div_anchor : option (string * string);
  div_next_div : option string;
}.

(** A node met by the [next_sibling] walk of the AustLII loop: a node
    without a [strip] attribute, a string node (its text, and what [strip()]
    returns for it), or a node on which calling [strip] raises. *)
Inductive sibling :=
  | SibNoStrip
  | SibText (raw stripped : string)
  | SibRaise (e : exn).

(** An element of [soup.find_all("a", href=True)]. *)
Record al_anchor := mk_al_anchor {
  al_href : string;
  al_text : string;
  al_siblings : list sibling;
  al_meta : option string;
}.

(** An element of [soup.select("a[data-result-uuid]")] and of
    [soup.select("div.gsc-webResult a.gs-title")]: text and optional href. *)
Record sel_anchor := mk_sel_anchor {
  sel_text : string;
  sel_href : option string;
}.

Record document := mk_document {
  divs_result_title : list ik_div;
  anchors_with_href : list al_anchor;
  anchors_result_uuid : list sel_anchor;
  anchors_gs_title : list sel_anchor;
}.

(** [BeautifulSoup("", "html.parser")] *)
Definition empty_document : document := mk_document [] [] [] [].

Record response := mk_response {
  status_code : Z;
  reason : string;
  content : document;
}.

Inductive driver_op :=
  | DGet (url : string)
  | DExecuteScript (script : string) (args : list string)
  | DWaitPresence (selector : string) (timeout : Z)
  | DWaitClickable (selector : string) (timeout : Z)
  | DClick (selector : string)
  | DPageSource.

Inductive container := IkContainer | JustiaContainer.

(** The middle columns that show the page number: [col2] and [col5]. *)
Inductive column := Col2 | Col5.

(** Calls that put text on the page. *)
Inductive ui_event :=
  | UTitle (s : string)
  | UWrite (s : string)
  | UMarkdown (s : string)
  | UError (s : string)
  | UContainerMarkdown (c : container) (s : string)
  | UColWrite (c : column) (s : string).

(** Everything the script does to the outside, in order. *)
Inductive event :=
  | EvHttpGet (url : string) (timeout : option Z)
  | EvEdge (args : list string)
  | EvDriver (op : driver_op)
  | EvQuit
  | EvUI (u : ui_event).

(** The outside world answers each call from the history so far. *)
Record world := mk_world {
  http_get : list event -> string -> exn + response;
  edge_new : list event -> option exn;
  driver_step : list event -> driver_op -> option exn;
  page_source : list event -> document;
}.

(** ** The monad: locals of the running function, session state and event
    log, with exceptions *)

Record mstate := mk_mstate {
  session : session_state;
  log : list event;
}.

Definition M (L A : Type) : Type := L -> mstate -> (exn + A) * L * mstate.

Definition ret {L A} (a : A) : M L A := fun l g => (inr a, l, g).

Definition bind {L A B} (m : M L A) (k : A -> M L B) : M L B :=
  fun l g =>
    match m l g with
    | (inr a, l', g') => k a l' g'
    | (inl e, l', g') => (inl e, l', g')
    end.

#[global] Instance M_ret L : MRet (M L) := @ret L.
#[global] Instance M_bind L : MBind (M L) := fun A B k m => bind m k.

Definition raise {L A} (e : exn) : M L A := fun l g => (inl e, l, g).

Definition get_local {L} : M L L := fun l g => (inr l, l, g).
Definition set_local {L} (l' : L) : M L unit := fun _ g => (inr tt, l', g).

Definition get_session {L} : M L session_state := fun l g => (inr (session g), l, g).
Definition modify_session {L} (f : session_state -> session_state) : M L unit :=
  fun l g => (inr tt, l, mk_mstate (f (session g)) (log g)).

Definition get_log {L} : M L (list event) := fun l g => (inr (log g), l, g).
Definition emit {L} (e : event) : M L unit :=
  fun l g => (inr tt, l, mk_mstate (session g) (log g ++ [e])).

(** [try: body except <classes>: handler] *)
Definition try_except {L A} (body : M L A) (catches : exn -> bool)
    (handler : exn -> M L A) : M L A :=
  fun l g =>
    match body l g with
    | (inl e, l', g') => if catches e then handler e l' g' else (inl e, l', g')
    | r => r
    end.

(** [try: body finally: cleanup]; an exception of the cleanup replaces the
    outcome of the body. *)
Definition finally {L A} (body : M L A) (cleanup : M L unit) : M L A :=
  fun l g =>
    match body l g with
    | (r, l', g') =>
      match cleanup l' g' with
      | (inr _, l'', g'') => (r, l'', g'')
      | (inl e, l'', g'') => (inl e, l'', g'')
      end
    end.

(** A call: the callee runs on its own locals. *)
Definition call {L L' A} (init : L') (m : M L' A) : M L A :=
  fun l g => match m init g with (r, _, g') => (r, l, g') end.

(** [for x in xs: body], with the accumulated value passed along. *)
Fixpoint for_each {L A B} (xs : list A) (body : B -> A -> M L B) (acc : B) : M L B :=
  match xs with
  | [] => ret acc
  | x :: xs' => acc' ← body acc x; for_each xs' body acc'
  end.

Definition when {L} (b : bool) (m : M L unit) : M L unit :=
  if b then m else ret tt.

(** Reading [st.session_state.<name>] while the key is absent raises. *)
Definition get_attr {L A} (field : session_state -> option A) (name : string) : M L A :=
  s ← get_session;
  match field s with
  | Some v => ret v
  | None => raise (mk_exn AttributeError ("st.session_state has no attribute " ++ name))
  end.

(** [st.error], [st.markdown] and the like. *)
Definition st_ui {L} (u : ui_event) : M L unit := emit (EvUI u).

(** ** Fetch routines *)

(** The addresses the routines build. *)

Definition ik_search_url (keyword : string) (page : Z) : string :=
  let encoded_keyword := quote_plus keyword in
  if page =? 1
  then "https://indiankanoon.org/search/?formInput=" ++ encoded_keyword
  else "https://indiankanoon.org/search/?formInput=" ++ encoded_keyword
         ++ "&pagenum=" ++ str_of_int (page - 1).

Definition austlii_search_url (keyword : string) : string :=
  let encoded_keyword := quote_plus keyword in
  "https://www.austlii.edu.au/cgi-bin/sinosrch.cgi?method=auto&query=" ++ encoded_keyword.

Definition canlii_base_url : string := "https://www.canlii.org/en/".

Definition justia_search_url (keyword : string) (page : Z) : string :=
  "https://www.justia.com/search?q=" ++ quote_plus keyword
    ++ "&cx=012624009653992735869%3Acyxxdwappru&start=" ++ str_of_int ((page - 1) * 10).

Definition non_empty (s : string) : bool := negb (String.eqb s "").

Section Fetch.

Variable w : world.

(** [requests.get(url, headers=headers[, timeout=t])] *)
Definition requests_get {L} (url : string) (timeout : option Z) : M L response :=
  h ← get_log;
  emit (EvHttpGet url timeout);;
  match http_get w h url with
  | inl e => raise e
  | inr r => ret r
  end.

(** [response.raise_for_status()] *)
Definition raise_for_status {L} (url : string) (r : response) : M L unit :=
  let c := status_code r in
  if (400 <=? c) && (c <? 500) then
    raise (mk_exn RequestException
             (str_of_int c ++ " Client Error: " ++ reason r ++ " for url: " ++ url))
  else if (500 <=? c) && (c <? 600) then
    raise (mk_exn RequestException
             (str_of_int c ++ " Server Error: " ++ reason r ++ " for url: " ++ url))
  else ret tt.

(** [webdriver.Edge(options=edge_options)] *)
Definition webdriver_Edge {L} (args : list string) : M L unit :=
  h ← get_log;
  emit (EvEdge args);;
  match edge_new w h with
  | Some e => raise e
  | None => ret tt
  end.

(** A call on the driver or on one of its elements. *)
Definition driver_do {L} (op : driver_op) : M L unit :=
  h ← get_log;
  emit (EvDriver op);;
  match driver_step w h op with
  | Some e => raise e
  | None => ret tt
  end.

(** [driver.page_source], handed to the parser. *)
Definition driver_page_source {L} : M L document :=
  h ← get_log;
  emit (EvDriver DPageSource);;
  match driver_step w h DPageSource with
  | Some e => raise e
  | None => ret (page_source w h)
  end.

(** [driver.quit()]: the Chromium driver swallows what goes wrong while
    quitting. *)
Definition driver_quit {L} : M L unit := emit EvQuit.

Definition ik_link (href : string) : string :=
  if negb (startswith href "http") then "https://indiankanoon.org" ++ href else href.

Definition ik_record (results : list result) (d : ik_div) : list result :=
  match div_anchor d with
  | Some (text, href) =>
    let link := ik_link href in
    let details := match div_next_div d with Some t => t | None => "" end in
    results ++ [mk_result text link (Some details)]
  | None => results
  end.

Definition fetch_indian_kanoon_results (keyword : string) (page : Z)
    : M unit (list result) :=
  let search_url := ik_search_url keyword page in
  response ← requests_get search_url None;
  if negb (status_code response =? 200) then ret []
  else ret (fold_left ik_record (divs_result_title (content response)) []).

Definition austlii_unavailable : result :=
  mk_result "AustLII" ""
    (Some "AustLII results are currently unavailable due to a connection error.").

Definition austlii_no_results : result :=
  mk_result "AustLII" "" (Some "No results found on AustLII.").

(** The [while next_text:] walk that looks for a title after the anchor. *)
Fixpoint next_sibling_title {L} (sibs : list sibling) : M L string :=
  match sibs with
  | [] => ret ""
  | SibNoStrip :: rest => next_sibling_title rest
  | SibText raw stripped :: rest =>
    if non_empty raw then
      if non_empty stripped then ret stripped else next_sibling_title rest
    else ret ""
  | SibRaise e :: _ => raise e
  end.

Definition al_link (href : string) : string :=
  if startswith href "http" then href else "https://www.austlii.edu.au" ++ href.

Definition al_record {L} (results : list result) (a : al_anchor) : M L (list result) :=
  let href := al_href a in
  if negb (contains "/cgi-bin/viewdoc/" href) then ret results
  else
    let link := al_link href in
    let title := al_text a in
    title ← (if negb (non_empty title) then next_sibling_title (al_siblings a)
             else ret title);
    let details := match al_meta a with Some t => t | None => "" end in
    ret (results ++ [mk_result title link (Some details)])%list.

Definition fetch_austlii_search_results (keyword : string) : M unit (list result) :=
  let search_url := austlii_search_url keyword in
  r ← try_except
        (response ← requests_get search_url (Some 20);
         raise_for_status search_url response;;
         ret (inl response))
        is_request_exception
        (fun e =>
           st_ui (UError ("Error fetching AustLII results: " ++ exn_msg e));;
           ret (inr [austlii_unavailable]));
  match r with
  | inr early => ret early
  | inl response =>
    results ← for_each (anchors_with_href (content response)) al_record [];
    ret (match results with
         | [] => (results ++ [austlii_no_results])%list
         | _ => results
         end)
  end.

(** Locals of the two browser-driven routines that the [try] block
    assigns and the code after it reads. *)
Record browser_locals := mk_browser_locals {
  driver : option unit;
  html : document;
}.

Definition edge_options : list string := ["--headless"; "--disable-gpu"].

Definition quit_if_created : M browser_locals unit :=
  l ← get_local;
  match driver l with
  | Some _ => driver_quit
  | None => ret tt
  end.

Definition canlii_link (href : string) : string :=
  if negb (startswith href "http") then "https://www.canlii.org" ++ href else href.

Definition canlii_record {L} (results : list result) (a : sel_anchor)
    : M L (list result) :=
  match sel_href a with
  | Some href => ret (results ++ [mk_result (sel_text a) (canlii_link href) None])%list
  | None => raise (mk_exn KeyError "'href'")
  end.

Definition fetch_canlii_body (keyword : string) : M browser_locals (list result) :=
  let base_url := canlii_base_url in
  finally
    (try_except
       (webdriver_Edge edge_options;;
        l ← get_local; set_local (mk_browser_locals (Some tt) (html l));;
        driver_do (DGet base_url);;
        driver_do (DExecuteScript
          ("if(document.getElementById('cookieConsentBlocker')) { "
           ++ "document.getElementById('cookieConsentBlocker').style.display = 'none'; }")
          []);;
        driver_do (DWaitPresence "#textInput" 20);;
        driver_do (DExecuteScript "arguments[0].value = arguments[1];"
                     ["#textInput"; keyword]);;
        driver_do (DWaitClickable "button[aria-label='Start a search']" 20);;
        driver_do (DClick "button[aria-label='Start a search']");;
        driver_do (DWaitPresence "a[data-result-uuid]" 40);;
        src ← driver_page_source;
        l ← get_local; set_local (mk_browser_locals (driver l) src))
       (fun _ => true)
       (fun err => st_ui (UError ("Error fetching CanLII results: " ++ exn_msg err))))
    quit_if_created;;
  l ← get_local;
  for_each (anchors_result_uuid (html l)) canlii_record [].

Definition fetch_canlii_search_results (keyword : string) : M unit (list result) :=
  call (mk_browser_locals None empty_document) (fetch_canlii_body keyword).

Definition justia_record (results : list result) (a : sel_anchor) : list result :=
  let link := match sel_href a with Some h => h | None => "" end in
  results ++ [mk_result (sel_text a) link None].

Definition fetch_justia_body (keyword : string) (page : Z)
    : M browser_locals (list result) :=
  finally
    (try_except
       (let search_url := justia_search_url keyword page in
        webdriver_Edge edge_options;;
        l ← get_local; set_local (mk_browser_locals (Some tt) (html l));;
        driver_do (DGet search_url);;
        driver_do (DWaitPresence ".gsc-webResult" 20);;
        src ← driver_page_source;
        l ← get_local; set_local (mk_browser_locals (driver l) src))
       (fun _ => true)
       (fun err => st_ui (UError ("Error fetching Justia results: " ++ exn_msg err))))
    quit_if_created;;
  l ← get_local;
  ret (fold_left justia_record (anchors_gs_title (html l)) []).

Definition fetch_justia_search_results (keyword : string) (page : Z)
    : M unit (list result) :=
  call (mk_browser_locals None empty_document) (fetch_justia_body keyword page).

End Fetch.

(** ** The dashboard script

    One run of [main] is one rerun of the script: the widgets return what
    the user set, and at most the buttons that were clicked return [True]. *)

Record ui_input := mk_input {
  search_ik : bool;
  search_al : bool;
  search_cl : bool;
  search_justia : bool;
  keyword_input : string;
  search_button : bool;
  prev_ik : bool;
  next_ik : bool;
  prev_justia : bool;
  next_justia : bool;
}.

Definition absent {A} (o : option A) : bool :=
  match o with Some _ => false | None => true end.

(** A formatter that updates the session state, run in the monad. *)
Definition run_format {L} (f : session_state -> session_state * string) : M L string :=
  fun l g => let '(s', text) := f (session g) in (inr text, l, mk_mstate s' (log g)).

Section Main.

Variable w : world.

(** [st.session_state.ik_results = fetch_indian_kanoon_results(keyword, ik_page)] *)
Definition refetch_ik : M unit unit :=
  kw ← get_attr keyword "keyword";
  pg ← get_attr ik_page "ik_page";
  r ← fetch_indian_kanoon_results w kw pg;
  modify_session (set_ik_results r).

(** [format_indian_kanoon_results(ik_results, ik_page)], shown through [out] *)
Definition show_ik (out : string -> ui_event) : M unit unit :=
  rs ← get_attr ik_results "ik_results";
  pg ← get_attr ik_page "ik_page";
  text ← run_format (format_indian_kanoon_results rs pg);
  st_ui (out text).

Definition refetch_justia : M unit unit :=
  kw ← get_attr keyword "keyword";
  pg ← get_attr justia_page "justia_page";
  r ← fetch_justia_search_results w kw pg;
  modify_session (set_justia_results r).

Definition show_justia (out : string -> ui_event) : M unit unit :=
  rs ← get_attr justia_results "justia_results";
  pg ← get_attr justia_page "justia_page";
  text ← run_format (format_justia_results rs pg);
  st_ui (out text).

Definition init_session : M unit unit :=
  s ← get_session; when (absent (keyword s)) (modify_session (set_keyword ""));;
  s ← get_session; when (absent (ik_page s)) (modify_session (set_ik_page 1));;
  s ← get_session; when (absent (justia_page s)) (modify_session (set_justia_page 1));;
  s ← get_session;
  when (absent (results_fetched s)) (modify_session (set_results_fetched false)).

Definition on_search (inp : ui_input) : M unit unit :=
  modify_session (set_keyword (keyword_input inp));;
  (if search_ik inp then modify_session (set_ik_page 1);; refetch_ik
   else modify_session (set_ik_results []));;
  (if search_al inp then
     kw ← get_attr keyword "keyword";
     r ← fetch_austlii_search_results w kw;
     modify_session (set_austlii_results r)
   else modify_session (set_austlii_results []));;
  (if search_cl inp then
     kw ← get_attr keyword "keyword";
     r ← fetch_canlii_search_results w kw;
     modify_session (set_canlii_results r)
   else modify_session (set_canlii_results []));;
  (if search_justia inp then modify_session (set_justia_page 1);; refetch_justia
   else modify_session (set_justia_results []));;
  modify_session (set_results_fetched true);;
  modify_session (set_ik_counts ∅);;
  modify_session (set_justia_counts ∅).

Definition display_ik (inp : ui_input) : M unit unit :=
  show_ik UMarkdown;;
  go_back ← (if prev_ik inp then pg ← get_attr ik_page "ik_page"; ret (1 <? pg)
             else ret false);
  when go_back
    (pg ← get_attr ik_page "ik_page";
     modify_session (set_ik_page (pg - 1));;
     refetch_ik;;
     show_ik (UContainerMarkdown IkContainer));;
  pg ← get_attr ik_page "ik_page";
  st_ui (UColWrite Col2 ("Page " ++ str_of_int pg));;
  when (next_ik inp)
    (pg ← get_attr ik_page "ik_page";
     modify_session (set_ik_page (pg + 1));;
     refetch_ik;;
     show_ik (UContainerMarkdown IkContainer));;
  st_ui (UMarkdown "---").

Definition display_generic (field : session_state -> option (list result))
    (name : string) (source_name : string) : M unit unit :=
  rs ← get_attr field name;
  st_ui (UMarkdown (format_results rs source_name));;
  st_ui (UMarkdown "---").

Definition display_justia (inp : ui_input) : M unit unit :=
  st_ui (UMarkdown "### Justia Results");;
  show_justia (UContainerMarkdown JustiaContainer);;
  go_back ← (if prev_justia inp then pg ← get_attr justia_page "justia_page"; ret (1 <? pg)
             else ret false);
  when go_back
    (pg ← get_attr justia_page "justia_page";
     modify_session (set_justia_page (pg - 1));;
     refetch_justia;;
     show_justia (UContainerMarkdown JustiaContainer));;
  pg ← get_attr justia_page "justia_page";
  st_ui (UColWrite Col5 ("Page " ++ str_of_int pg));;
  when (next_justia inp)
    (pg ← get_attr justia_page "justia_page";
     modify_session (set_justia_page (pg + 1));;
     refetch_justia;;
     show_justia (UContainerMarkdown JustiaContainer)).

Definition main (inp : ui_input) : M unit unit :=
  st_ui (UTitle "Legal Search Dashboard");;
  st_ui (UWrite "This dashboard searches multiple legal databases for your query.");;
  init_session;;
  when (search_button inp) (on_search inp);;
  fetched ← get_attr results_fetched "results_fetched";
  when fetched
    (when (search_ik inp) (display_ik inp);;
     when (search_al inp) (display_generic austlii_results "austlii_results" "AustLII");;
     when (search_cl inp) (display_generic canlii_results "canlii_results" "CanLII");;
     when (search_justia inp) (display_justia inp)).

(** One rerun of the script on a session: the session it leaves, what it
    did, and whether it ended by an exception. *)
Definition run_main (inp : ui_input) (s : session_state)
    : (exn + unit) * session_state * list event :=
  match main inp tt (mk_mstate s []) with
  | (r, _, g) => (r, session g, log g)
  end.

End Main.

(** Sessions that reruns of the script can produce, whatever the user does
    and whatever the outside world answers. *)
Inductive reachable : session_state -> Prop :=
  | reach_start : reachable empty_session
  | reach_rerun w inp s : reachable s -> reachable (run_main w inp s).1.2.

(** ** Vocabulary of the statements *)

(** ** Sources and what belongs to them *)

Inductive source := IndianKanoon | AustLII | CanLII | Justia.


(** The checkbox of a source. *)
Definition enabled (inp : ui_input) (src : source) : bool :=
  match src with
  | IndianKanoon => search_ik inp
  | AustLII => search_al inp
  | CanLII => search_cl inp
  | Justia => search_justia inp
  end.

(** The result list that [main] stores for a source. *)
Definition stored (src : source) (s : session_state) : option (list result) :=
  match src with
  | IndianKanoon => ik_results s
  | AustLII => austlii_results s
  | CanLII => canlii_results s
  | Justia => justia_results s
  end.

(** The fetch routine of a source, called as [main] calls it. *)
Definition fetch (w : world) (src : source) (keyword : string) (page : Z)
    : M unit (list result) :=
  match src with
  | IndianKanoon => fetch_indian_kanoon_results w keyword page
  | AustLII => fetch_austlii_search_results w keyword
  | CanLII => fetch_canlii_search_results w keyword
  | Justia => fetch_justia_search_results w keyword page
  end.

(** What a fetch started on an empty log returns and does. *)
Definition fetch_outcome (w : world) (src : source) (keyword : string) (page : Z)
    : exn + list result :=
  (fetch w src keyword page tt (mk_mstate empty_session [])).1.1.


Definition is_http_get (e : event) : bool :=
  match e with EvHttpGet _ _ => true | _ => false end.

Definition is_edge (e : event) : bool :=
  match e with EvEdge _ => true | _ => false end.

Definition is_quit (e : event) : bool :=
  match e with EvQuit => true | _ => false end.

Definition is_driver_op (e : event) : bool :=
  match e with EvDriver _ => true | _ => false end.

(** A browser event: the session is opened, driven or closed. *)
Definition is_browser (e : event) : bool := is_edge e || is_driver_op e || is_quit e.




Definition site (src : source) : string :=
  match src with
  | IndianKanoon => "https://indiankanoon.org"
  | AustLII => "https://www.austlii.edu.au"
  | CanLII => "https://www.canlii.org"
  | Justia => "https://www.justia.com"
  end.

(** Text on the page that is about a source: its result block, its "No
    results found." message, its page indicator, its error message. *)
Definition shown_for (src : source) (u : ui_event) : bool :=
  match src, u with
  | IndianKanoon, UMarkdown s =>
    String.eqb s "No results found." || startswith s "### Indian Kanoon"
  | IndianKanoon, UContainerMarkdown IkContainer _ => true
  | IndianKanoon, UColWrite Col2 _ => true
  | IndianKanoon, UError s => startswith s "Error fetching Indian Kanoon"
  | AustLII, UMarkdown s => startswith s "### AustLII"
  | AustLII, UError s => startswith s "Error fetching AustLII"
  | CanLII, UMarkdown s => startswith s "### CanLII"
  | CanLII, UError s => startswith s "Error fetching CanLII"
  | Justia, UMarkdown s => startswith s "### Justia"
  | Justia, UContainerMarkdown JustiaContainer _ => true
  | Justia, UColWrite Col5 _ => true
  | Justia, UError s => startswith s "Error fetching Justia"
  | _, _ => false
  end.

(** An event that concerns a source: text shown for it, or a request to its
    site. *)
Definition concerns (src : source) (e : event) : bool :=
  match e with
  | EvUI u => shown_for src u
  | EvHttpGet url _ => startswith url (site src)
  | EvDriver (DGet url) => startswith url (site src)
  | _ => false
  end.

(** The events a fetch routine of a source can produce for a keyword and a
    page. *)
Definition may_emit (src : source) (keyword : string) (page : Z) (e : event) : bool :=
  match src, e with
  | IndianKanoon, EvHttpGet url None => String.eqb url (ik_search_url keyword page)
  | AustLII, EvHttpGet url timeout =>
    String.eqb url (austlii_search_url keyword) && bool_decide (timeout = Some 20)
  | AustLII, EvUI (UError s) => startswith s "Error fetching AustLII results: "
  | CanLII, EvEdge args => bool_decide (args = edge_options)
  | CanLII, EvDriver (DGet url) => String.eqb url canlii_base_url
  | CanLII, EvDriver _ => true
  | CanLII, EvQuit => true
  | CanLII, EvUI (UError s) => startswith s "Error fetching CanLII results: "
  | Justia, EvEdge args => bool_decide (args = edge_options)
  | Justia, EvDriver (DGet url) => String.eqb url (justia_search_url keyword page)
  | Justia, EvDriver (DWaitPresence _ _) => true
  | Justia, EvDriver DPageSource => true
  | Justia, EvQuit => true
  | Justia, EvUI (UError s) => startswith s "Error fetching Justia results: "
  | _, _ => false
  end.

(** A link that begins with [http]. *)
Definition absolute (r : result) : bool := startswith (link r) "http".

(** How many events of a kind a trace holds. *)
Definition count (kind : event -> bool) (evs : list event) : nat :=
  length (filter (fun e => kind e = true) evs).

(** The events of one call that opens a browser session within the call
    and, when the driver was created, quits it before the call ends. *)
Definition session_scoped (created : bool) (evs : list event) : Prop :=
  head evs = Some (EvEdge edge_options) /\
  count is_edge evs = 1%nat /\
  if created
  then last evs = Some EvQuit /\ count is_quit evs = 1%nat
  else count is_quit evs = 0%nat /\ count is_driver_op evs = 0%nat.

(** Nothing in the log concerns the source. *)
Definition quiet (src : source) (g : mstate) : Prop :=
  Forall (fun e => concerns src e = false) (log g).

(** The list stored for the source is empty. *)
Definition cleared (src : source) (g : mstate) : Prop :=
  stored src (session g) = Some [].

(** A "No results found" message on the page. *)
Definition says_no_results (e : event) : bool :=
  match e with
  | EvUI (UMarkdown s) | EvUI (UContainerMarkdown _ s) | EvUI (UWrite s)
  | EvUI (UError s) | EvUI (UTitle s) | EvUI (UColWrite _ s) =>
    contains "No results found" s
  | _ => false
  end.

(** Both page counters are set and hold a number from 1 on. *)
Definition pages_set_from_one (s : session_state) : Prop :=
  exists p q, ik_page s = Some p /\ justia_page s = Some q /\ 1 <= p /\ 1 <= q.

(** The page counters hold a number from 1 on, when they are set. *)
Definition pages_at_least_one (s : session_state) : Prop :=
  (forall p, ik_page s = Some p -> 1 <= p) /\
  (forall p, justia_page s = Some p -> 1 <= p).

(** The text [text] opens with [header] and then an entry numbered [n] for
    the record [r]. *)
Definition first_entry_numbered (text header : string) (n : Z) (r : result) : Prop :=
  exists tail : string,
    text = (header ++ "**" ++ str_of_int n ++ ". " ++ title r ++ "**" ++ nl ++ tail)%string.

(** The count that a formatter leaves for a page. *)
Definition recorded (counts : option (gmap Z Z)) (page : Z) : Z :=
  count_at (default ∅ counts) page.

(** The count that the session holds for a page: 0 while it holds none. *)
Definition count_left (counts : option (gmap Z Z)) (page : Z) : Z :=
  match counts with
  | Some m => match m !! page with Some n => n | None => 0 end
  | None => 0
  end.

(** The counts that the session holds for the pages [pages], added up. *)
Definition counts_left (counts : option (gmap Z Z)) (pages : list Z) : Z :=
  foldr (fun page total => count_left counts page + total) 0 pages.

(** What the page shows for the record [r] under the number [n]: the
    numbered title, the link and, for a formatter that prints details, the
    details when the record has some; then an empty line. *)
Definition details_line (r : result) : string :=
  match details r with
  | Some d => if String.eqb d "" then "" else "- Details: " ++ d ++ nl
  | None => ""
  end.

Definition shown_entry (with_details : bool) (n : Z) (r : result) : string :=
  "**" ++ str_of_int n ++ ". " ++ title r ++ "**" ++ nl
  ++ "- Link: " ++ link r ++ nl
  ++ (if with_details then details_line r else "") ++ nl.

(** The entries of the records [rs], numbered [start], [start + 1], ... *)
Definition shown_entries (with_details : bool) (start : Z) (rs : list result) : string :=
  String.concat "" (zip_with (shown_entry with_details) (seqZ start (len rs)) rs).





(** ** A browsing session used in examples *)

Module Example.

Definition kw : string := "contract law".

Definition url1 : string := "https://indiankanoon.org/search/?formInput=contract+law".
Definition url2 : string := (url1 ++ "&pagenum=1")%string.
Definition url3 : string := (url1 ++ "&pagenum=2")%string.

Definition hit (n : string) : ik_div :=
  mk_ik_div (Some (("Case " ++ n)%string, ("/doc/" ++ n ++ "/")%string)) (Some "held").

Definition doc (hits : list ik_div) : document := mk_document hits [] [] [].

Definition no_browser : exn := mk_exn WebDriverException "msedgedriver not found".

(** Indian Kanoon answers 2 results, then 1, then 1. *)
Definition site_up : world :=
  mk_world
    (fun _ url =>
       if String.eqb url url1 then inr (mk_response 200 "OK" (doc [hit "1"; hit "2"]))
       else if String.eqb url url2 then inr (mk_response 200 "OK" (doc [hit "3"]))
       else if String.eqb url url3 then inr (mk_response 200 "OK" (doc [hit "4"]))
       else inr (mk_response 404 "Not Found" empty_document))
    (fun _ => Some no_browser)
    (fun _ _ => Some no_browser)
    (fun _ => empty_document).

(** The same site while its server fails. *)
Definition site_failing : world :=
  mk_world
    (fun _ _ => inr (mk_response 500 "Internal Server Error" empty_document))
    (fun _ => Some no_browser)
    (fun _ _ => Some no_browser)
    (fun _ => empty_document).

Definition connection_error : exn :=
  mk_exn RequestException "Connection refused".

(** No network and no browser driver. *)
Definition offline : world :=
  mk_world
    (fun _ _ => inl connection_error)
    (fun _ => Some no_browser)
    (fun _ _ => Some no_browser)
    (fun _ => empty_document).

Definition mabo : al_anchor :=
  mk_al_anchor "/cgi-bin/viewdoc/au/cases/cth/HCA/1992/23.html"
    "Mabo v Queensland (No 2)" [] (Some "High Court of Australia").

Definition rendered : document :=
  mk_document [] []
    [mk_sel_anchor "R. v. Oakes" (Some "/en/ca/scc/doc/1986/1986canlii46/")]
    [mk_sel_anchor "Marbury v. Madison"
       (Some "https://supreme.justia.com/cases/federal/us/5/137/")].

(** Indian Kanoon cannot be reached; the other three sites answer. *)
Definition ik_unreachable : world :=
  mk_world
    (fun _ url =>
       if startswith url "https://indiankanoon.org" then inl connection_error
       else inr (mk_response 200 "OK" (mk_document [] [mabo] [] [])))
    (fun _ => None)
    (fun _ _ => None)
    (fun _ => rendered).

Definition search_all : ui_input :=
  mk_input true true true true kw true false false false false.

Definition search_none : ui_input :=
  mk_input false false false false kw true false false false false.

Definition only_ik (search prev next : bool) : ui_input :=
  mk_input true false false false kw search prev next false false.

Definition click_search := only_ik true false false.
Definition click_next := only_ik false false true.
Definition click_prev := only_ik false true false.

Definition after (w : world) (inp : ui_input) (s : session_state) : session_state :=
  (run_main w inp s).1.2.

Definition shown (w : world) (inp : ui_input) (s : session_state) : list event :=
  (run_main w inp s).2.

Definition s1 := after site_up click_search empty_session.
Definition s2 := after site_up click_next s1.
Definition s3 := after site_up click_prev s2.
Definition s4 := after site_failing click_next s3.

(** Back from page 2 to page 1 while the server fails: page 1 is empty. *)
Definition s3_failed := after site_failing click_prev s2.

End Example.

(** ** Vocabulary of the proofs *)

(** [hoare P m Q]: from a state where [P] holds, [m] ends (normally or by
    an exception) in a state related to its outcome by [Q]. *)
Definition hoare {L A} (P : mstate -> Prop) (m : M L A)
    (Q : exn + A -> mstate -> Prop) : Prop :=
  forall l g, P g -> Q (m l g).1.1 (m l g).2.

(** [keeps J m]: [m] keeps the invariant [J], however it ends. *)
Definition keeps {L A} (J : mstate -> Prop) (m : M L A) : Prop :=
  hoare J m (fun _ => J).

(** [emits ok m]: [m] leaves the session as it is and adds to the log only
    events that satisfy [ok]. *)
Definition emits {L A} (ok : event -> Prop) (m : M L A) : Prop :=
  forall l g, exists evs,
    (m l g).2 = mk_mstate (session g) (log g ++ evs) /\ Forall ok evs.

(** [keeps_all J m]: [m] keeps an invariant on locals and state together. *)
Definition keeps_all {L A} (J : L -> mstate -> Prop) (m : M L A) : Prop :=
  forall l g, J l g -> J (m l g).1.2 (m l g).2.

(** An event that neither opens nor closes a browser session. *)
Definition inside_session (e : event) : Prop := is_edge e = false /\ is_quit e = false.

(** The steps of a browser-driven routine between the creation of the
    driver and the end of its [try] block: they keep every invariant that
    survives events inside the session and assignments to [html]. *)
Definition drives_only (steps : M browser_locals unit) : Prop :=
  forall J : browser_locals -> mstate -> Prop,
    (forall l g e, inside_session e -> J l g ->
       J l (mk_mstate (session g) (log g ++ [e]))) ->
    (forall l g d, J l g -> J (mk_browser_locals (driver l) d) g) ->
    keeps_all J steps.


(** The four blocks of a search, one per source. *)
Definition search_block (w : world) (inp : ui_input) (from : source) : M unit unit :=
  match from with
  | IndianKanoon =>
    if search_ik inp then modify_session (set_ik_page 1) ≫= fun _ => refetch_ik w
    else modify_session (set_ik_results [])
  | AustLII =>
    if search_al inp then
      get_attr keyword "keyword" ≫= fun kw =>
      fetch_austlii_search_results w kw ≫= fun r =>
      modify_session (set_austlii_results r)
    else modify_session (set_austlii_results [])
  | CanLII =>
    if search_cl inp then
      get_attr keyword "keyword" ≫= fun kw =>
      fetch_canlii_search_results w kw ≫= fun r =>
      modify_session (set_canlii_results r)
    else modify_session (set_canlii_results [])
  | Justia =>
    if search_justia inp then
      modify_session (set_justia_page 1) ≫= fun _ => refetch_justia w
    else modify_session (set_justia_results [])
  end.

(** ** Vocabulary of the further properties *)

(** The record that the Indian Kanoon loop builds from one result block,
    if the block has a linked anchor. *)
Definition ik_entry (d : ik_div) : option result :=
  match div_anchor d with
  | Some (text, href) =>
    Some (mk_result text (ik_link href) (Some (default "" (div_next_div d))))
  | None => None
  end.

(** The record that the Justia loop builds from one anchor. *)
Definition justia_entry (a : sel_anchor) : result :=
  mk_result (sel_text a) (default "" (sel_href a)) None.

(** The records that the CanLII loop builds from the anchors; none when
    an anchor has no href. *)
Fixpoint canlii_entries (anchors : list sel_anchor) : option (list result) :=
  match anchors with
  | [] => Some []
  | a :: rest =>
    match sel_href a, canlii_entries rest with
    | Some href, Some rs => Some (mk_result (sel_text a) (canlii_link href) None :: rs)
    | _, _ => None
    end
  end.

(** A browser session driven through the steps [ops] from the history
    [h]: the steps are taken in order, up to the first that fails. The
    history then reached, and the failure if there is one. *)
Fixpoint driven (w : world) (h : list event) (ops : list driver_op)
    : list event * option exn :=
  match ops with
  | [] => (h, None)
  | op :: ops' =>
    match driver_step w h op with
    | Some e => ((h ++ [EvDriver op])%list, Some e)
    | None => driven w (h ++ [EvDriver op])%list ops'
    end
  end.

(** An error message on the page. *)
Definition shows_error (e : event) : bool :=
  match e with EvUI (UError _) => true | _ => false end.

(** A request to a site or a step of a browser session. *)
Definition is_fetch_event (e : event) : bool := is_http_get e || is_browser e.

(** Once a search has completed, the four result lists are stored. *)
Definition session_ready (s : session_state) : Prop :=
  results_fetched s = Some true ->
  forall src, is_Some (stored src s).

(** What a rerun that fetches nothing leaves alone, with respect to the
    session [s0] it started from: no request and no browser step is in the
    log, the stored lists are those of [s0], a page counter set in [s0]
    has its value, and a counter whose "Previous" button is clicked is not
    beyond page 1. *)
Definition undisturbed (inp : ui_input) (s0 : session_state) (g : mstate) : Prop :=
  Forall (fun e => is_fetch_event e = false) (log g) /\
  (forall src, stored src (session g) = stored src s0) /\
  (forall p, ik_page s0 = Some p -> ik_page (session g) = Some p) /\
  (forall p, justia_page s0 = Some p -> justia_page (session g) = Some p) /\
  (prev_ik inp = true -> forall p, ik_page (session g) = Some p -> p <= 1) /\
  (prev_justia inp = true -> forall p, justia_page (session g) = Some p -> p <= 1).

(** The session is ready and the lists of the sources in [have] are
    stored. *)
Definition lists_ready (have : list source) (g : mstate) : Prop :=
  session_ready (session g) /\
  Forall (fun src => is_Some (stored src (session g))) have.

(** [succeeds I m I']: from a session where [I] holds, [m] ends without an
    exception, in a session where [I'] holds. *)
Definition succeeds {L A} (I : session_state -> Prop) (m : M L A)
    (I' : session_state -> Prop) : Prop :=
  forall l g, I (session g) ->
    (exists a, (m l g).1.1 = inr a) /\ I' (session (m l g).2).

(** The keys that a search with the keyword [kw] leaves in place. *)
Definition searched (kw : string) (s : session_state) : Prop :=
  keyword s = Some kw /\ is_Some (ik_page s) /\ is_Some (justia_page s) /\
  results_fetched s = Some true /\ forall src, is_Some (stored src s).

(** The keys in place when the blocks of a search for [kw] run. *)
Definition search_started (kw : string) (s : session_state) : Prop :=
  keyword s = Some kw /\ is_Some (ik_page s) /\ is_Some (justia_page s).

(** * Properties *)

(** ** Reasoning rules for the monad *)

Ltac unfold_M :=
  repeat progress
    unfold mbind, M_bind, mret, M_ret, bind, ret, raise, get_local, set_local,
      get_session, modify_session, get_log, emit, st_ui, get_attr, when in *.

Section Rules.

Context {L : Type}.

Lemma hoare_bind {A B} P R Q (m : M L A) (k : A -> M L B) :
  hoare P m R ->
  (forall a, hoare (R (inr a)) (k a) Q) ->
  (forall e g, R (inl e) g -> Q (inl e) g) ->
  hoare P (m ≫= k) Q.
Proof.
  intros Hm Hk He l g HP. specialize (Hm l g HP). unfold_M.
  destruct (m l g) as [[[e|a] l'] g']; cbn in *; [by apply He|].
  by apply Hk.
Qed.

Lemma hoare_skip {A B} Q (m : M L A) (k : A -> M L B) :
  (forall a, hoare (fun _ => True) (k a) Q) ->
  (forall e g, Q (inl e) g) ->
  hoare (fun _ => True) (m ≫= k) Q.
Proof.
  intros Hk He. apply (hoare_bind _ (fun _ _ => True)); [done|done|auto].
Qed.

Lemma hoare_weaken {A} (P P' : mstate -> Prop) (Q Q' : exn + A -> mstate -> Prop)
    (m : M L A) :
  hoare P' m Q' -> (forall g, P g -> P' g) -> (forall r g, Q' r g -> Q r g) ->
  hoare P m Q.
Proof. intros H HP HQ l g Hg. apply HQ, H, HP, Hg. Qed.

Lemma keeps_bind {A B} J (m : M L A) (k : A -> M L B) :
  keeps J m -> (forall a, keeps J (k a)) -> keeps J (m ≫= k).
Proof. intros Hm Hk. apply (hoare_bind _ (fun _ => J)); auto. Qed.

Lemma keeps_ret {A} J (a : A) : keeps J (ret (L:=L) a).
Proof. by intros l g. Qed.

Lemma keeps_mret {A} J (a : A) : keeps J (mret (M:=M L) a).
Proof. by intros l g. Qed.

Lemma keeps_raise {A} J e : keeps J (raise (L:=L) (A:=A) e).
Proof. by intros l g. Qed.

Lemma keeps_get_local J : keeps J (get_local (L:=L)).
Proof. by intros l g. Qed.

Lemma keeps_set_local J l' : keeps J (set_local (L:=L) l').
Proof. by intros l g. Qed.

Lemma keeps_get_session J : keeps J (get_session (L:=L)).
Proof. by intros l g. Qed.

Lemma keeps_get_log J : keeps J (get_log (L:=L)).
Proof. by intros l g. Qed.

Lemma keeps_modify_session (J : mstate -> Prop) f :
  (forall g, J g -> J (mk_mstate (f (session g)) (log g))) ->
  keeps J (modify_session (L:=L) f).
Proof. intros H l g Hg. by apply H. Qed.

Lemma keeps_emit (J : mstate -> Prop) e :
  (forall g, J g -> J (mk_mstate (session g) (log g ++ [e]))) ->
  keeps J (emit (L:=L) e).
Proof. intros H l g Hg. by apply H. Qed.

Lemma keeps_get_attr {A} J (field : session_state -> option A) name :
  keeps J (get_attr (L:=L) field name).
Proof. intros l g Hg. unfold_M. cbn. by destruct (field (session g)). Qed.

Lemma keeps_when J (b : bool) (m : M L unit) :
  (b = true -> keeps J m) -> keeps J (when b m).
Proof. destruct b; intros H; [by apply H | apply keeps_ret]. Qed.

Lemma keeps_try_except {A} J (body : M L A) catches handler :
  keeps J body -> (forall e, keeps J (handler e)) ->
  keeps J (try_except body catches handler).
Proof.
  intros Hb Hh l g Hg. specialize (Hb l g Hg). unfold try_except.
  destruct (body l g) as [[[e|a] l'] g']; cbn in *; [|done].
  destruct (catches e); [by apply Hh | done].
Qed.

Lemma keeps_finally {A} J (body : M L A) cleanup :
  keeps J body -> keeps J cleanup -> keeps J (finally body cleanup).
Proof.
  intros Hb Hc l g Hg. specialize (Hb l g Hg). unfold finally.
  destruct (body l g) as [[r l'] g']; cbn in *.
  specialize (Hc l' g' Hb).
  by destruct (cleanup l' g') as [[[e|a] l''] g''].
Qed.

Lemma keeps_call {L' A} J (init : L') (m : M L' A) :
  keeps J m -> keeps J (call (L:=L) init m).
Proof.
  intros Hm l g Hg. specialize (Hm init g Hg). unfold call.
  by destruct (m init g) as [[r l'] g'].
Qed.

Lemma keeps_for_each {A B} J (xs : list A) (body : B -> A -> M L B) acc :
  (forall acc x, keeps J (body acc x)) -> keeps J (for_each xs body acc).
Proof.
  intros Hb. revert acc. induction xs as [|x xs IH]; intros acc; cbn [for_each].
  - apply keeps_ret.
  - apply keeps_bind; [apply Hb | apply IH].
Qed.

Lemma keeps_run_format (J : mstate -> Prop) f :
  (forall g, J g -> J (mk_mstate (f (session g)).1 (log g))) ->
  keeps J (run_format (L:=L) f).
Proof.
  intros H l g Hg. unfold run_format. specialize (H g Hg).
  by destruct (f (session g)).
Qed.

(** An [emits] computation keeps every invariant that survives its
    events. *)
Lemma emits_keeps {A} (J : mstate -> Prop) ok (m : M L A) :
  emits ok m ->
  (forall g evs, J g -> Forall ok evs -> J (mk_mstate (session g) (log g ++ evs))) ->
  keeps J m.
Proof.
  intros Hm HJ l g Hg. destruct (Hm l g) as (evs & -> & Hok). by apply HJ.
Qed.

Lemma emits_weaken {A} (ok ok' : event -> Prop) (m : M L A) :
  emits ok m -> (forall e, ok e -> ok' e) -> emits ok' m.
Proof.
  intros Hm H l g. destruct (Hm l g) as (evs & ? & Hok).
  exists evs. split; [done|]. eapply Forall_impl; eauto.
Qed.

Lemma emits_nothing {A} ok (m : M L A) :
  (forall l g, (m l g).2 = g) -> emits ok m.
Proof.
  intros H l g. exists []. rewrite H, app_nil_r. by destruct g.
Qed.

Lemma emits_ret {A} ok (a : A) : emits ok (ret (L:=L) a).
Proof. by apply emits_nothing. Qed.

Lemma emits_mret {A} ok (a : A) : emits ok (mret (M:=M L) a).
Proof. by apply emits_nothing. Qed.

Lemma emits_raise {A} ok e : emits ok (raise (L:=L) (A:=A) e).
Proof. by apply emits_nothing. Qed.

Lemma emits_get_local ok : emits ok (get_local (L:=L)).
Proof. by apply emits_nothing. Qed.

Lemma emits_set_local ok l' : emits ok (set_local (L:=L) l').
Proof. by apply emits_nothing. Qed.

Lemma emits_get_log ok : emits ok (get_log (L:=L)).
Proof. by apply emits_nothing. Qed.

Lemma emits_emit (ok : event -> Prop) e : ok e -> emits ok (emit (L:=L) e).
Proof. intros H l g. exists [e]. split; [done|]. by constructor. Qed.

Lemma emits_bind {A B} ok (m : M L A) (k : A -> M L B) :
  emits ok m -> (forall a, emits ok (k a)) -> emits ok (m ≫= k).
Proof.
  intros Hm Hk l g. destruct (Hm l g) as (evs & Hg & Hok). unfold_M.
  destruct (m l g) as [[[e|a] l'] g']; cbn in *; [by exists evs|].
  destruct (Hk a l' g') as (evs' & Hg' & Hok'). exists (evs ++ evs')%list.
  rewrite Hg', Hg. cbn. rewrite app_assoc. split; [done|].
  by apply Forall_app.
Qed.

Lemma emits_try_except {A} ok (body : M L A) catches handler :
  emits ok body -> (forall e, emits ok (handler e)) ->
  emits ok (try_except body catches handler).
Proof.
  intros Hb Hh l g. destruct (Hb l g) as (evs & Hg & Hok). unfold try_except.
  destruct (body l g) as [[[e|a] l'] g']; cbn in *; [|by exists evs].
  destruct (catches e); [|by exists evs].
  destruct (Hh e l' g') as (evs' & Hg' & Hok'). exists (evs ++ evs')%list.
  rewrite Hg', Hg. cbn. rewrite app_assoc. split; [done|].
  by apply Forall_app.
Qed.

Lemma emits_finally {A} ok (body : M L A) cleanup :
  emits ok body -> emits ok cleanup -> emits ok (finally body cleanup).
Proof.
  intros Hb Hc l g. destruct (Hb l g) as (evs & Hg & Hok). unfold finally.
  destruct (body l g) as [[r l'] g']; cbn in *.
  destruct (Hc l' g') as (evs' & Hg' & Hok').
  exists (evs ++ evs')%list.
  destruct (cleanup l' g') as [[[e|a] l''] g'']; cbn in *;
    rewrite Hg', Hg; cbn; rewrite app_assoc; (split; [done|]);
    by apply Forall_app.
Qed.

Lemma emits_call {L' A} ok (init : L') (m : M L' A) :
  emits ok m -> emits ok (call (L:=L) init m).
Proof.
  intros Hm l g. destruct (Hm init g) as (evs & Hg & Hok). unfold call.
  destruct (m init g) as [[r l'] g']. by exists evs.
Qed.

Lemma emits_for_each {A B} ok (xs : list A) (body : B -> A -> M L B) acc :
  (forall acc x, emits ok (body acc x)) -> emits ok (for_each xs body acc).
Proof.
  intros Hb. revert acc. induction xs as [|x xs IH]; intros acc; cbn [for_each].
  - apply emits_ret.
  - apply emits_bind; [apply Hb | apply IH].
Qed.

End Rules.

(** ** What the fetch routines do to the outside *)

Ltac emits_step :=
  first
    [ apply emits_bind; [|intros ?]
    | apply emits_ret | apply emits_mret | apply emits_raise
    | apply emits_get_local | apply emits_set_local | apply emits_get_log
    | apply emits_try_except; [|intros ?]
    | apply emits_finally
    | apply emits_call
    | apply emits_for_each; intros ? ?
    | apply emits_emit
    | match goal with
      | |- emits _ (match ?x with _ => _ end) => destruct x eqn:?
      end ].

Ltac emits_auto := cbv zeta; repeat emits_step.

Lemma startswith_app (p s : string) : startswith (p ++ s) p = true.
Proof.
  unfold startswith. induction p as [|c p IH].
  - by destruct s.
  - change (String.prefix (String c p) (String c (p ++ s)) = true). cbn.
    destruct (ascii_dec c c); [done|congruence].
Qed.

Lemma next_sibling_title_emits {L} ok (sibs : list sibling) :
  emits ok (next_sibling_title (L:=L) sibs).
Proof.
  induction sibs as [|[|raw stripped|e] sibs IH]; cbn [next_sibling_title];
    emits_auto; done.
Qed.

Lemma fetch_indian_kanoon_results_emits w keyword page :
  emits (fun e => may_emit IndianKanoon keyword page e = true)
    (fetch_indian_kanoon_results w keyword page).
Proof.
  unfold fetch_indian_kanoon_results, requests_get. emits_auto.
  cbn. apply String.eqb_refl.
Qed.

Lemma fetch_austlii_search_results_emits w keyword page :
  emits (fun e => may_emit AustLII keyword page e = true)
    (fetch_austlii_search_results w keyword).
Proof.
  unfold fetch_austlii_search_results, requests_get, raise_for_status, al_record, st_ui.
  emits_auto; try apply next_sibling_title_emits.
  - cbn. by rewrite String.eqb_refl.
  - apply startswith_app.
Qed.

Lemma fetch_canlii_search_results_emits w keyword page :
  emits (fun e => may_emit CanLII keyword page e = true)
    (fetch_canlii_search_results w keyword).
Proof.
  unfold fetch_canlii_search_results, fetch_canlii_body, webdriver_Edge, driver_do,
    driver_page_source, quit_if_created, driver_quit, canlii_record, st_ui.
  emits_auto; try done.
  apply startswith_app.
Qed.

Lemma fetch_justia_search_results_emits w keyword page :
  emits (fun e => may_emit Justia keyword page e = true)
    (fetch_justia_search_results w keyword page).
Proof.
  unfold fetch_justia_search_results, fetch_justia_body, webdriver_Edge, driver_do,
    driver_page_source, quit_if_created, driver_quit, st_ui.
  emits_auto; try done.
  - cbn. apply String.eqb_refl.
  - apply startswith_app.
Qed.

Lemma fetch_emits w src keyword page :
  emits (fun e => may_emit src keyword page e = true) (fetch w src keyword page).
Proof.
  destruct src; cbn [fetch].
  - apply fetch_indian_kanoon_results_emits.
  - apply fetch_austlii_search_results_emits.
  - apply fetch_canlii_search_results_emits.
  - apply fetch_justia_search_results_emits.
Qed.

(** ** Numbering *)

Lemma enumerate_numbers {A} (l : list A) (start : Z) :
  (enumerate start l).*1 = seqZ start (len l).
Proof.
  unfold len. revert start.
  induction l as [|x l IH]; intros start; [done|].
  rewrite length_cons, Nat2Z.inj_succ, seqZ_cons by lia.
  cbn [enumerate fmap list_fmap fst]. f_equal.
  rewrite Z.pred_succ. replace (Z.succ start) with (start + 1) by lia. apply IH.
Qed.

Lemma string_app_assoc (a b c : string) : ((a ++ b) ++ c = a ++ (b ++ c))%string.
Proof.
  induction a as [|x a IH]; [done|].
  change (String x ((a ++ b) ++ c) = String x (a ++ b ++ c))%string. by f_equal.
Qed.

Lemma string_app_empty_r (a : string) : (a ++ "")%string = a.
Proof.
  induction a as [|x a IH]; [done|].
  change (String x (a ++ "") = String x a)%string. by f_equal.
Qed.

Lemma entry_with_details_app (acc : string) (ir : Z * result) :
  entry_with_details acc ir = (acc ++ entry_with_details "" ir)%string.
Proof.
  destruct ir as [i res]. unfold entry_with_details.
  destruct (details_truthy res); by rewrite !string_app_assoc.
Qed.

Lemma entry_plain_app (acc : string) (ir : Z * result) :
  entry_plain acc ir = (acc ++ entry_plain "" ir)%string.
Proof. destruct ir as [i res]. reflexivity. Qed.

Lemma fold_entries_app (entry : string -> Z * result -> string)
    (Happ : forall acc ir, entry acc ir = (acc ++ entry "" ir)%string)
    (l : list (Z * result)) (acc : string) :
  fold_left entry l acc = (acc ++ fold_left entry l "")%string.
Proof.
  revert acc. induction l as [|ir l IH]; intros acc; cbn [fold_left].
  - by rewrite string_app_empty_r.
  - rewrite IH, (IH (entry "" ir)), Happ. by rewrite string_app_assoc.
Qed.

Lemma fold_entry_with_details_first (header : string) (n : Z) (r : result) rs :
  first_entry_numbered
    (fold_left entry_with_details (enumerate n (r :: rs)) header) header n r.
Proof.
  cbn [enumerate fold_left].
  rewrite (fold_entries_app _ entry_with_details_app).
  generalize (fold_left entry_with_details (enumerate (n + 1) rs) "").
  intros rest. unfold entry_with_details, first_entry_numbered.
  destruct (details_truthy r); eexists; rewrite !string_app_assoc; reflexivity.
Qed.

Lemma fold_entry_plain_first (header : string) (n : Z) (r : result) rs :
  first_entry_numbered (fold_left entry_plain (enumerate n (r :: rs)) header) header n r.
Proof.
  cbn [enumerate fold_left].
  rewrite (fold_entries_app _ entry_plain_app).
  generalize (fold_left entry_plain (enumerate (n + 1) rs) "").
  intros rest. unfold entry_plain, first_entry_numbered.
  eexists; rewrite !string_app_assoc; reflexivity.
Qed.

(** C2. On page 1 the entries are numbered from 1: [format_results]
    enumerates every non-empty list from 1, and so do
    [format_indian_kanoon_results] and [format_justia_results] when
    [current_page] is 1, whatever counts the session holds; the first entry
    of each text reads [1.] and the numbers go up by one. *)
Theorem numbering_starts_at_one (r : result) (rs : list result)
    (source_name : string) (s : session_state) :
  let results := r :: rs in
  let generic := format_results results source_name in
  let ik := (format_indian_kanoon_results results 1 s).2 in
  let justia := (format_justia_results results 1 s).2 in
  let generic_header := ("### " ++ source_name ++ " Results:" ++ nl ++ nl)%string in
  let ik_header := ("### Indian Kanoon Results (Page 1)" ++ nl ++ nl)%string in
  let justia_header := ("### Justia Results (Page 1)" ++ nl ++ nl)%string in
  generic = fold_left entry_with_details (enumerate 1 results) generic_header /\
  ik = fold_left entry_with_details (enumerate 1 results) ik_header /\
  justia = fold_left entry_plain (enumerate 1 results) justia_header /\
  (enumerate 1 results).*1 = seqZ 1 (len results) /\
  first_entry_numbered generic generic_header 1 r /\
  first_entry_numbered ik ik_header 1 r /\
  first_entry_numbered justia justia_header 1 r.
Proof.
  intros results generic ik justia generic_header ik_header justia_header.
  assert (Hg : generic = fold_left entry_with_details (enumerate 1 results) generic_header)
    by reflexivity.
  assert (Hi : ik = fold_left entry_with_details (enumerate 1 results) ik_header)
    by reflexivity.
  assert (Hj : justia = fold_left entry_plain (enumerate 1 results) justia_header)
    by reflexivity.
  split_and!; try done.
  - apply enumerate_numbers.
  - rewrite Hg. apply fold_entry_with_details_first.
  - rewrite Hi. apply fold_entry_with_details_first.
  - rewrite Hj. apply fold_entry_plain_first.
Qed.

(** The paginated formatters change nothing but the counts. *)
Lemma format_indian_kanoon_results_session rs pg s :
  (format_indian_kanoon_results rs pg s).1
  = match rs with
    | [] => s
    | _ => set_ik_counts (<[pg := len rs]> (default ∅ (ik_counts s))) s
    end.
Proof. destruct rs; [done|]. unfold format_indian_kanoon_results. by destruct (ik_counts s). Qed.

Lemma format_justia_results_session rs pg s :
  (format_justia_results rs pg s).1
  = match rs with
    | [] => s
    | _ => set_justia_counts (<[pg := len rs]> (default ∅ (justia_counts s))) s
    end.
Proof. destruct rs; [done|]. unfold format_justia_results. by destruct (justia_counts s). Qed.

(** ** What a page shows *)

Lemma string_concat_cons (x : string) (xs : list string) :
  String.concat "" (x :: xs) = (x ++ String.concat "" xs)%string.
Proof.
  destruct xs as [|y ys]; [by rewrite string_app_empty_r | reflexivity].
Qed.

Lemma shown_entries_cons (with_details : bool) (start : Z) (r : result) rs :
  shown_entries with_details start (r :: rs)
  = (shown_entry with_details start r ++ shown_entries with_details (start + 1) rs)%string.
Proof.
  unfold shown_entries, len. rewrite length_cons, Nat2Z.inj_succ, seqZ_cons by lia.
  rewrite Z.pred_succ. cbn [zip_with]. rewrite string_concat_cons.
  by replace (Z.succ start) with (start + 1) by lia.
Qed.

Lemma entry_with_details_shown (acc : string) (n : Z) (r : result) :
  entry_with_details acc (n, r) = (acc ++ shown_entry true n r)%string.
Proof.
  unfold entry_with_details, shown_entry, details_line, details_truthy.
  destruct (details r) as [d|]; [destruct (String.eqb d "")|];
    rewrite !string_app_assoc; reflexivity.
Qed.

Lemma entry_plain_shown (acc : string) (n : Z) (r : result) :
  entry_plain acc (n, r) = (acc ++ shown_entry false n r)%string.
Proof. unfold entry_plain, shown_entry. reflexivity. Qed.

Lemma fold_entries_shown (with_details : bool)
    (entry : string -> Z * result -> string)
    (Hentry : forall acc n r, entry acc (n, r) = (acc ++ shown_entry with_details n r)%string)
    (rs : list result) (start : Z) (header : string) :
  fold_left entry (enumerate start rs) header
  = (header ++ shown_entries with_details start rs)%string.
Proof.
  revert start header. induction rs as [|r rs IH]; intros start header.
  - cbn [enumerate fold_left]. by rewrite string_app_empty_r.
  - cbn [enumerate fold_left]. rewrite IH, Hentry, shown_entries_cons.
    by rewrite string_app_assoc.
Qed.

(** ** The counts behind the first number of a page *)

Lemma sum_from (l : list Z) (a : Z) : fold_left Z.add l a = a + sum l.
Proof.
  unfold sum. revert a. induction l as [|x l IH]; intros a; cbn [fold_left]; [lia|].
  rewrite IH, (IH (0 + x)). lia.
Qed.

Lemma cumulative_before_counts_left (counts : option (gmap Z Z)) (page n : Z) :
  cumulative_before (<[page := n]> (default ∅ counts)) page
  = counts_left counts (seqZ 1 (page - 1)).
Proof.
  unfold cumulative_before, range.
  assert (Hin : forall q, q ∈ seqZ 1 (page - 1) -> q <> page)
    by (intros q Hq%elem_of_seqZ; lia).
  induction (seqZ 1 (page - 1)) as [|q qs IH]; [done|].
  cbn [map foldr counts_left]. unfold sum. cbn [fold_left].
  rewrite sum_from. fold (counts_left counts qs).
  rewrite <- IH by (intros q' Hq'; apply Hin, elem_of_cons; by right).
  f_equal. unfold count_at, count_left.
  rewrite lookup_insert_ne by (intros Heq; apply (Hin q); [apply elem_of_cons; by left | done]).
  destruct counts as [m|]; cbn; [by destruct (m !! q)|done].
Qed.

Lemma format_indian_kanoon_results_shown rs pg s :
  (format_indian_kanoon_results rs pg s).2
  = match rs with
    | [] => "No results found."
    | _ => "### Indian Kanoon Results (Page " ++ str_of_int pg ++ ")" ++ nl ++ nl
           ++ shown_entries true (counts_left (ik_counts s) (seqZ 1 (pg - 1)) + 1) rs
    end%string.
Proof.
  destruct rs as [|r rs]; [done|].
  unfold format_indian_kanoon_results. cbn [snd].
  rewrite (fold_entries_shown true _ entry_with_details_shown).
  rewrite <- (cumulative_before_counts_left (ik_counts s) pg (len (r :: rs))).
  rewrite !string_app_assoc. by destruct (ik_counts s).
Qed.

Lemma format_justia_results_shown rs pg s :
  (format_justia_results rs pg s).2
  = match rs with
    | [] => "No results found."
    | _ => "### Justia Results (Page " ++ str_of_int pg ++ ")" ++ nl ++ nl
           ++ shown_entries false (counts_left (justia_counts s) (seqZ 1 (pg - 1)) + 1) rs
    end%string.
Proof.
  destruct rs as [|r rs]; [done|].
  unfold format_justia_results. cbn [snd].
  rewrite (fold_entries_shown false _ entry_plain_shown).
  rewrite <- (cumulative_before_counts_left (justia_counts s) pg (len (r :: rs))).
  rewrite !string_app_assoc. by destruct (justia_counts s).
Qed.

(** C1, as the code has it. Continuous numbering: once page 1 has been
    formatted, page 2 with [n2] results shows the entries numbered
    [c+1 .. c+n2], where [c] is the count that the session then holds for
    page 1. After a page 1 with [n1 >= 1] results that count is [n1], so
    the numbers are [n1+1 .. n1+n2]; after an empty page 1 nothing was
    recorded and [c] is the count that the session held before, 0 when it
    held none. For Indian Kanoon and for Justia, from any session. *)
Theorem continuous_numbering (s : session_state) (page1 page2 : list result) :
  let n1 := len page1 in
  let n2 := len page2 in
  let s_ik := (format_indian_kanoon_results page1 1 s).1 in
  let s_justia := (format_justia_results page1 1 s).1 in
  let c_ik := match page1 with [] => count_left (ik_counts s) 1 | _ => n1 end in
  let c_justia := match page1 with [] => count_left (justia_counts s) 1 | _ => n1 end in
  count_left (ik_counts s_ik) 1 = c_ik /\
  count_left (justia_counts s_justia) 1 = c_justia /\
  (format_indian_kanoon_results page2 2 s_ik).2
    = match page2 with
      | [] => "No results found."
      | _ => "### Indian Kanoon Results (Page 2)" ++ nl ++ nl
             ++ String.concat "" (zip_with (shown_entry true) (seqZ (c_ik + 1) n2) page2)
      end%string /\
  (format_justia_results page2 2 s_justia).2
    = match page2 with
      | [] => "No results found."
      | _ => "### Justia Results (Page 2)" ++ nl ++ nl
             ++ String.concat "" (zip_with (shown_entry false) (seqZ (c_justia + 1) n2) page2)
      end%string.
Proof.
  intros n1 n2 s_ik s_justia c_ik c_justia.
  assert (Hik : count_left (ik_counts s_ik) 1 = c_ik).
  { subst s_ik c_ik n1. rewrite format_indian_kanoon_results_session.
    destruct page1 as [|q qs]; [done|]. cbn. by rewrite lookup_insert_eq. }
  assert (Hju : count_left (justia_counts s_justia) 1 = c_justia).
  { subst s_justia c_justia n1. rewrite format_justia_results_session.
    destruct page1 as [|q qs]; [done|]. cbn. by rewrite lookup_insert_eq. }
  split_and!; [done | done | |].
  - rewrite format_indian_kanoon_results_shown.
    destruct page2 as [|r rs]; [done|].
    change (seqZ 1 (2 - 1)) with [1]. cbn [counts_left foldr].
    rewrite Hik, Z.add_0_r. reflexivity.
  - rewrite format_justia_results_shown.
    destruct page2 as [|r rs]; [done|].
    change (seqZ 1 (2 - 1)) with [1]. cbn [counts_left foldr].
    rewrite Hju, Z.add_0_r. reflexivity.
Qed.

(** The worked example of continuous numbering: 9 items on page 1,
    numbered 1 to 9, then 8 items on page 2, numbered 10 to 17. *)
Lemma continuous_numbering_9_then_8 :
  let item := mk_result "A v B" "https://indiankanoon.org/doc/1/" (Some "held") in
  let page1 := replicate 9 item in
  let page2 := replicate 8 item in
  let entry (n : string) :=
    ("**" ++ n ++ ". A v B**" ++ nl ++ "- Link: https://indiankanoon.org/doc/1/" ++ nl
     ++ "- Details: held" ++ nl ++ nl)%string in
  let plain (n : string) :=
    ("**" ++ n ++ ". A v B**" ++ nl ++ "- Link: https://indiankanoon.org/doc/1/" ++ nl
     ++ nl)%string in
  (format_indian_kanoon_results page1 1 empty_session).2
    = ("### Indian Kanoon Results (Page 1)" ++ nl ++ nl
       ++ entry "1" ++ entry "2" ++ entry "3" ++ entry "4" ++ entry "5"
       ++ entry "6" ++ entry "7" ++ entry "8" ++ entry "9")%string /\
  (format_indian_kanoon_results page2 2
     (format_indian_kanoon_results page1 1 empty_session).1).2
    = ("### Indian Kanoon Results (Page 2)" ++ nl ++ nl
       ++ entry "10" ++ entry "11" ++ entry "12" ++ entry "13"
       ++ entry "14" ++ entry "15" ++ entry "16" ++ entry "17")%string /\
  (format_justia_results page2 2
     (format_justia_results page1 1 empty_session).1).2
    = ("### Justia Results (Page 2)" ++ nl ++ nl
       ++ plain "10" ++ plain "11" ++ plain "12" ++ plain "13"
       ++ plain "14" ++ plain "15" ++ plain "16" ++ plain "17")%string.
Proof.
  intros item page1 page2 entry plain.
  destruct (continuous_numbering empty_session page1 page2) as (_ & _ & Hik & Hju).
  split_and!.
  - vm_compute. reflexivity.
  - rewrite Hik. vm_compute. reflexivity.
  - rewrite Hju. vm_compute. reflexivity.
Defined.

(** The numbering of C1 as it is written fails after an empty page 1. In
    this browsing session page 1 had 2 results; the user goes to page 2
    and back while the server fails, so page 1 now returns no result and
    "No results found." is shown for it; page 2, with 1 result, is then
    numbered from 3, not from 0 + 1. *)
Lemma page_2_after_empty_page_1_starts_at_3 :
  let s := Example.s3_failed in
  let page1 : list result := [] in
  let page2 := [mk_result "Case 3" "https://indiankanoon.org/doc/3/" (Some "held")] in
  let numbered (n : string) :=
    ("### Indian Kanoon Results (Page 2)" ++ nl ++ nl
     ++ "**" ++ n ++ ". Case 3**" ++ nl
     ++ "- Link: https://indiankanoon.org/doc/3/" ++ nl
     ++ "- Details: held" ++ nl ++ nl)%string in
  reachable s /\
  ik_page s = Some 1 /\
  ik_results s = Some page1 /\
  In (EvUI (UContainerMarkdown IkContainer "No results found."))
     (Example.shown Example.site_failing Example.click_prev Example.s2) /\
  ik_results (Example.after Example.site_up Example.click_next s) = Some page2 /\
  In (EvUI (UContainerMarkdown IkContainer (numbered "3")))
     (Example.shown Example.site_up Example.click_next s) /\
  (format_indian_kanoon_results page2 2
     (format_indian_kanoon_results page1 1 s).1).2 = numbered "3" /\
  len page1 + 1 = 1 /\
  (format_indian_kanoon_results page2 2
     (format_indian_kanoon_results page1 1 s).1).2 <> numbered "1".
Proof.
  intros s page1 page2 numbered. split.
  - unfold s, Example.s3_failed, Example.s2, Example.s1, Example.after.
    do 3 apply reach_rerun. apply reach_start.
  - vm_compute. split_and!; try reflexivity; try discriminate; tauto.
Qed.

(** ** Empty pages *)

Lemma counts_left_app (counts : option (gmap Z Z)) (l1 l2 : list Z) :
  counts_left counts (l1 ++ l2) = counts_left counts l1 + counts_left counts l2.
Proof.
  unfold counts_left. induction l1 as [|q l1 IH]; cbn [app foldr]; [done|].
  rewrite IH. lia.
Qed.

(** The pages before [later], with [page] set apart. *)
Lemma pages_before_split (page later : Z) :
  1 <= page < later ->
  seqZ 1 (later - 1)
  = (seqZ 1 (page - 1) ++ [page] ++ seqZ (page + 1) (later - 1 - page))%list.
Proof.
  intros Hpage.
  replace (later - 1) with ((page - 1) + (1 + (later - 1 - page))) at 1 by lia.
  rewrite seqZ_app by lia. f_equal.
  rewrite seqZ_app by lia. f_equal; [|f_equal; lia].
  replace (1 + (page - 1)) with page by lia. reflexivity.
Qed.

Lemma counts_left_before (counts : option (gmap Z Z)) (page later : Z) :
  1 <= page < later ->
  counts_left counts (seqZ 1 (later - 1))
  = counts_left counts (seqZ 1 (page - 1) ++ seqZ (page + 1) (later - 1 - page))
    + match default ∅ counts !! page with Some n => n | None => 0 end.
Proof.
  intros Hpage. rewrite (pages_before_split page later) by done.
  rewrite !counts_left_app. cbn [counts_left foldr]. unfold count_left.
  destruct counts as [m|]; cbn [from_option id];
    [destruct (m !! page)|rewrite lookup_empty]; lia.
Qed.

(** C10, as the code has it. On an empty result list both paginated
    formatters return exactly "No results found." and leave the session,
    the recorded counts included, as it was. A later page that is
    formatted next is numbered from the counts of the other pages before
    it, plus what the session holds for the empty page, plus 1: the empty
    page counts for zero when the session holds no count for it, and for
    the count [n] of its earlier visit when the session holds one. *)
Theorem empty_page_records_nothing (s : session_state) (page later : Z)
    (r : result) (rs : list result) :
  1 <= page < later ->
  let results := r :: rs in
  let others := (seqZ 1 (page - 1) ++ seqZ (page + 1) (later - 1 - page))%list in
  let s_ik := (format_indian_kanoon_results [] page s).1 in
  let s_justia := (format_justia_results [] page s).1 in
  let ik_from (start : Z) :=
    ("### Indian Kanoon Results (Page " ++ str_of_int later ++ ")" ++ nl ++ nl
     ++ shown_entries true start results)%string in
  let justia_from (start : Z) :=
    ("### Justia Results (Page " ++ str_of_int later ++ ")" ++ nl ++ nl
     ++ shown_entries false start results)%string in
  format_indian_kanoon_results [] page s = (s, "No results found.") /\
  format_justia_results [] page s = (s, "No results found.") /\
  (format_indian_kanoon_results results later s_ik).2
    = match default ∅ (ik_counts s) !! page with
      | None => ik_from (counts_left (ik_counts s) others + 0 + 1)
      | Some n => ik_from (counts_left (ik_counts s) others + n + 1)
      end /\
  (format_justia_results results later s_justia).2
    = match default ∅ (justia_counts s) !! page with
      | None => justia_from (counts_left (justia_counts s) others + 0 + 1)
      | Some n => justia_from (counts_left (justia_counts s) others + n + 1)
      end.
Proof.
  intros Hpage results others s_ik s_justia ik_from justia_from.
  split_and!; [done | done | |].
  - subst s_ik. cbn [format_indian_kanoon_results fst].
    rewrite format_indian_kanoon_results_shown. subst results ik_from. cbv beta.
    rewrite (counts_left_before _ page later) by done. fold others.
    by destruct (default ∅ (ik_counts s) !! page).
  - subst s_justia. cbn [format_justia_results fst].
    rewrite format_justia_results_shown. subst results justia_from. cbv beta.
    rewrite (counts_left_before _ page later) by done. fold others.
    by destruct (default ∅ (justia_counts s) !! page).
Qed.

(** Page 1 has 2 results and page 2 is empty on its first visit: page 3
    is numbered from 3. *)
Lemma empty_page_records_nothing_fresh :
  let s := set_ik_counts {[1 := 2]} empty_session in
  let item := mk_result "A v B" "https://indiankanoon.org/doc/9/" None in
  1 <= 2 < 3 /\
  format_indian_kanoon_results [] 2 s = (s, "No results found.") /\
  default ∅ (ik_counts s) !! 2 = None /\
  (format_indian_kanoon_results [item] 3 (format_indian_kanoon_results [] 2 s).1).2
    = ("### Indian Kanoon Results (Page 3)" ++ nl ++ nl
       ++ "**3. A v B**" ++ nl
       ++ "- Link: https://indiankanoon.org/doc/9/" ++ nl ++ nl)%string.
Proof.
  intros s item.
  assert (Hpage : 1 <= 2 < 3) by lia.
  destruct (empty_page_records_nothing s 2 3 item [] Hpage) as (Hik & _ & Htext & _).
  split; [exact Hpage|]. split; [exact Hik|]. split; [vm_compute; reflexivity|].
  rewrite Htext. vm_compute. reflexivity.
Defined.

(** A browsing session in which an empty page does not count for zero:
    page 2 is visited with one result, visited again while the server
    fails (so it is empty and "No results found." is shown), and page 3 is
    then numbered from 4, not from 3. *)
Lemma empty_page_keeps_earlier_count :
  let s3 := Example.s3 in
  let s4 := Example.s4 in
  ik_page s4 = Some 2 /\
  ik_results s4 = Some [] /\
  format_indian_kanoon_results [] 2 s3 = (s3, "No results found.") /\
  In (EvUI (UContainerMarkdown IkContainer "No results found."))
     (Example.shown Example.site_failing Example.click_next s3) /\
  recorded (ik_counts s4) 1 = 2 /\
  recorded (ik_counts s4) 2 = 1 /\
  recorded (ik_counts s4) 2 <> 0 /\
  In (EvUI (UContainerMarkdown IkContainer
        ("### Indian Kanoon Results (Page 3)" ++ nl ++ nl
         ++ "**4. Case 4**" ++ nl
         ++ "- Link: https://indiankanoon.org/doc/4/" ++ nl
         ++ "- Details: held" ++ nl ++ nl)%string))
     (Example.shown Example.site_up Example.click_next s4).
Proof.
  vm_compute. split_and!; try reflexivity; try discriminate; tauto.
Qed.

(** ** Failures of a fetch *)

(** C9. When the response status is not 200, [fetch_indian_kanoon_results]
    returns the empty list: it does not raise, and its only effect is the
    GET itself, so no error message is shown. A response with status 200
    and no result block gives the very same outcome. *)
Theorem ik_non_200_is_empty (w : world) (keyword : string) (page : Z)
    (l : unit) (g : mstate) (resp : response) :
  http_get w (log g) (ik_search_url keyword page) = inr resp ->
  status_code resp <> 200 ->
  fetch_indian_kanoon_results w keyword page l g
    = (inr [], l,
       mk_mstate (session g) (log g ++ [EvHttpGet (ik_search_url keyword page) None])) /\
  forall w' resp',
    http_get w' (log g) (ik_search_url keyword page) = inr resp' ->
    status_code resp' = 200 ->
    divs_result_title (content resp') = [] ->
    fetch_indian_kanoon_results w' keyword page l g
      = fetch_indian_kanoon_results w keyword page l g.
Proof.
  intros Hget Hcode.
  assert (Hfail : fetch_indian_kanoon_results w keyword page l g
    = (inr [], l,
       mk_mstate (session g) (log g ++ [EvHttpGet (ik_search_url keyword page) None]))).
  { unfold fetch_indian_kanoon_results, requests_get. unfold_M. cbn.
    rewrite Hget. cbn.
    destruct (Z.eqb_spec (status_code resp) 200) as [?|_]; [done|]. reflexivity. }
  split; [exact Hfail|].
  intros w' resp' Hget' Hcode' Hdivs. rewrite Hfail.
  unfold fetch_indian_kanoon_results, requests_get. unfold_M. cbn.
  rewrite Hget'. cbn. rewrite Hcode', Hdivs. reflexivity.
Qed.

Lemma ik_non_200_is_empty_500 :
  let g := mk_mstate empty_session [] in
  let resp := mk_response 500 "Internal Server Error" empty_document in
  http_get Example.site_failing (log g) (ik_search_url Example.kw 2) = inr resp /\
  status_code resp <> 200 /\
  fetch_indian_kanoon_results Example.site_failing Example.kw 2 tt g
    = (inr [], tt,
       mk_mstate (session g) (log g ++ [EvHttpGet (ik_search_url Example.kw 2) None])).
Proof.
  intros g resp.
  assert (Hget : http_get Example.site_failing (log g) (ik_search_url Example.kw 2)
                 = inr resp) by reflexivity.
  assert (Hcode : status_code resp <> 200) by (cbn; lia).
  split_and!; [exact Hget | exact Hcode |].
  exact (proj1 (ik_non_200_is_empty Example.site_failing Example.kw 2 tt g resp
                  Hget Hcode)).
Defined.

(** What the other three routines do when the network or the driver
    fails: the failure is caught, an error is shown, a list is returned. *)
Lemma austlii_catches_request_exception (w : world) (keyword : string)
    (l : unit) (g : mstate) (e : exn) :
  http_get w (log g) (austlii_search_url keyword) = inl e ->
  is_request_exception e = true ->
  fetch_austlii_search_results w keyword l g
    = (inr [austlii_unavailable], l,
       mk_mstate (session g)
         (log g ++ [EvHttpGet (austlii_search_url keyword) (Some 20);
                    EvUI (UError ("Error fetching AustLII results: " ++ exn_msg e))])).
Proof.
  intros Hget He.
  unfold fetch_austlii_search_results, try_except, requests_get. unfold_M. cbn.
  rewrite Hget. cbn. rewrite He. cbn. by rewrite <- app_assoc.
Qed.

Lemma canlii_catches_driver_failure (w : world) (keyword : string)
    (l : unit) (g : mstate) (e : exn) :
  edge_new w (log g) = Some e ->
  fetch_canlii_search_results w keyword l g
    = (inr [], l,
       mk_mstate (session g)
         (log g ++ [EvEdge edge_options;
                    EvUI (UError ("Error fetching CanLII results: " ++ exn_msg e))])).
Proof.
  intros Hnew.
  unfold fetch_canlii_search_results, call, fetch_canlii_body, finally, try_except,
    webdriver_Edge, quit_if_created.
  unfold_M. cbn. rewrite Hnew. cbn. by rewrite <- app_assoc.
Qed.

Lemma justia_catches_driver_failure (w : world) (keyword : string) (page : Z)
    (l : unit) (g : mstate) (e : exn) :
  edge_new w (log g) = Some e ->
  fetch_justia_search_results w keyword page l g
    = (inr [], l,
       mk_mstate (session g)
         (log g ++ [EvEdge edge_options;
                    EvUI (UError ("Error fetching Justia results: " ++ exn_msg e))])).
Proof.
  intros Hnew.
  unfold fetch_justia_search_results, call, fetch_justia_body, finally, try_except,
    webdriver_Edge, quit_if_created.
  unfold_M. cbn. rewrite Hnew. cbn. by rewrite <- app_assoc.
Qed.

(** Indian Kanoon has no handler: a failure of its GET leaves the routine
    as an exception. *)
Lemma ik_lets_request_exception_through (w : world) (keyword : string) (page : Z)
    (l : unit) (g : mstate) (e : exn) :
  http_get w (log g) (ik_search_url keyword page) = inl e ->
  fetch_indian_kanoon_results w keyword page l g
    = (inl e, l,
       mk_mstate (session g) (log g ++ [EvHttpGet (ik_search_url keyword page) None])).
Proof.
  intros Hget. unfold fetch_indian_kanoon_results, requests_get. unfold_M. cbn.
  by rewrite Hget.
Qed.

(** C3, where the code departs from it. With Indian Kanoon unreachable and
    the three other sites answering, a search with every source enabled
    ends by the connection error of Indian Kanoon: nothing is stored or
    shown for the other sources, although each of them, asked alone,
    returns a result. *)
Theorem ik_failure_aborts_search :
  let w := Example.ik_unreachable in
  fetch_outcome w IndianKanoon Example.kw 1 = inl Example.connection_error /\
  (exists r, fetch_outcome w AustLII Example.kw 1 = inr [r]) /\
  (exists r, fetch_outcome w CanLII Example.kw 1 = inr [r]) /\
  (exists r, fetch_outcome w Justia Example.kw 1 = inr [r]) /\
  run_main w Example.search_all empty_session
    = (inl Example.connection_error,
       mk_session (Some Example.kw) (Some 1) (Some 1) (Some false)
         None None None None None None,
       [EvUI (UTitle "Legal Search Dashboard");
        EvUI (UWrite "This dashboard searches multiple legal databases for your query.");
        EvHttpGet Example.url1 None]).
Proof.
  split_and!; try (eexists; vm_compute; reflexivity); vm_compute; reflexivity.
Qed.

(** ** Browser sessions *)

Section LocalRules.

Context {L : Type} (J : L -> mstate -> Prop).

Lemma keeps_all_bind {A B} (m : M L A) (k : A -> M L B) :
  keeps_all J m -> (forall a, keeps_all J (k a)) -> keeps_all J (m ≫= k).
Proof.
  intros Hm Hk l g HJ. specialize (Hm l g HJ). unfold_M.
  destruct (m l g) as [[[e|a] l'] g']; cbn in *; [done|]. by apply Hk.
Qed.

Lemma keeps_all_ret {A} (a : A) : keeps_all J (ret a).
Proof. by intros l g. Qed.

Lemma keeps_all_raise {A} e : keeps_all J (raise (A:=A) e).
Proof. by intros l g. Qed.

Lemma keeps_all_get_log : keeps_all J get_log.
Proof. by intros l g. Qed.

Lemma keeps_all_emit e :
  (forall l g, J l g -> J l (mk_mstate (session g) (log g ++ [e]))) ->
  keeps_all J (emit e).
Proof. intros H l g HJ. by apply H. Qed.

Lemma keeps_all_update_local (f : L -> L) :
  (forall l g, J l g -> J (f l) g) ->
  keeps_all J (get_local ≫= fun l => set_local (f l)).
Proof. intros H l g HJ. by apply H. Qed.

End LocalRules.

Ltac drives_step :=
  first
    [ apply keeps_all_update_local; solve [auto]
    | apply keeps_all_bind; [|intros ?]
    | apply keeps_all_ret | apply keeps_all_raise | apply keeps_all_get_log
    | apply keeps_all_emit; intros ? ?;
      match goal with
      | H : forall l g e, inside_session e -> _ |- _ => apply H; by split
      end
    | match goal with
      | |- keeps_all _ (match ?x with _ => _ end) => destruct x
      end ].

Ltac drives_auto :=
  intros ? ? ?; unfold driver_do, driver_page_source; repeat drives_step.

Lemma count_app kind (evs1 evs2 : list event) :
  count kind (evs1 ++ evs2) = (count kind evs1 + count kind evs2)%nat.
Proof. unfold count. by rewrite filter_app, length_app. Qed.

Lemma count_none kind (evs : list event) :
  Forall (fun e => kind e = false) evs -> count kind evs = 0%nat.
Proof.
  unfold count. induction 1 as [|e evs He _ IH]; [done|].
  rewrite filter_cons_False; [done | congruence].
Qed.

Lemma session_scoped_created (mid tail : list event) :
  Forall inside_session mid ->
  tail = [EvQuit] \/ (exists msg, tail = [EvUI (UError msg); EvQuit]) ->
  session_scoped true (EvEdge edge_options :: mid ++ tail).
Proof.
  intros Hmid Htail.
  assert (Hedge : count is_edge mid = 0%nat).
  { apply count_none. eapply Forall_impl; [exact Hmid|]. by intros e [? ?]. }
  assert (Hquit : count is_quit mid = 0%nat).
  { apply count_none. eapply Forall_impl; [exact Hmid|]. by intros e [? ?]. }
  unfold session_scoped. split; [done|].
  change (EvEdge edge_options :: mid ++ tail)
    with ([EvEdge edge_options] ++ mid ++ tail)%list.
  rewrite !count_app, Hedge, Hquit.
  destruct Htail as [-> | [msg ->]].
  - split_and!; [done | | done]. by rewrite app_assoc, last_snoc.
  - split_and!; [done | | done].
    change [EvUI (UError msg); EvQuit] with ([EvUI (UError msg)] ++ [EvQuit])%list.
    by rewrite !app_assoc, last_snoc.
Qed.

(** The shape shared by the two browser-driven routines: the driver is
    created first in the [try] block, failures are reported by [st.error],
    and the [finally] block quits the driver if there is one. *)
Lemma browser_session_scoped (w : world) (steps : M browser_locals unit)
    (report : string) (g : mstate) :
  drives_only steps ->
  let session_block :=
    finally
      (try_except
         (webdriver_Edge w edge_options ≫= fun _ =>
          get_local ≫= fun l =>
          set_local (mk_browser_locals (Some tt) (html l)) ≫= fun _ => steps)
         (fun _ => true)
         (fun err => st_ui (UError (report ++ exn_msg err))))
      quit_if_created in
  let out := session_block (mk_browser_locals None empty_document) g in
  exists evs,
    out.2 = mk_mstate (session g) (log g ++ evs) /\
    (exists a, out.1.1 = inr a) /\
    session_scoped (bool_decide (edge_new w (log g) = None)) evs.
Proof.
  intros Hsteps session_block out. subst out session_block.
  unfold finally, try_except, webdriver_Edge, quit_if_created, driver_quit.
  unfold_M. cbn.
  destruct (edge_new w (log g)) as [e|] eqn:Hnew; cbn.
  - exists [EvEdge edge_options; EvUI (UError (report ++ exn_msg e))].
    rewrite <- app_assoc. split_and!; [done | by eexists | done].
  - set (l1 := mk_browser_locals (Some tt) empty_document).
    set (g1 := mk_mstate (session g) (log g ++ [EvEdge edge_options])).
    pose (J := fun (l : browser_locals) (g' : mstate) =>
      driver l = Some tt /\
      exists mid, g' = mk_mstate (session g) (log g ++ EvEdge edge_options :: mid)
                  /\ Forall inside_session mid).
    assert (HJ : J (steps l1 g1).1.2 (steps l1 g1).2).
    { apply (Hsteps J).
      - intros l g' ev Hev [Hd (mid & -> & Hmid)]. split; [done|].
        exists (mid ++ [ev])%list. cbn. split.
        + by rewrite <- app_assoc.
        + apply Forall_app. split; [done | by constructor].
      - by intros l g' d [Hd Hmid].
      - split; [done|]. exists []. split; [done | constructor]. }
    destruct (steps l1 g1) as [[[e|[]] l2] g2]; cbn in HJ |- *;
      destruct HJ as [Hd (mid & -> & Hmid)]; rewrite Hd; cbn.
    + exists (EvEdge edge_options :: mid ++ [EvUI (UError (report ++ exn_msg e)); EvQuit]).
      split_and!.
      * f_equal. rewrite <- !app_assoc. reflexivity.
      * by eexists.
      * apply session_scoped_created; eauto.
    + exists (EvEdge edge_options :: mid ++ [EvQuit]).
      split_and!.
      * f_equal. by rewrite <- !app_assoc.
      * by eexists.
      * apply session_scoped_created; eauto.
Qed.

Lemma bind_run {L A B} (m : M L A) (k : A -> M L B) (l : L) (g : mstate) :
  (m ≫= k) l g
  = match m l g with
    | (inr a, l', g') => k a l' g'
    | (inl e, l', g') => (inl e, l', g')
    end.
Proof. reflexivity. Qed.

Lemma canlii_records_state {L} (xs : list sel_anchor) acc (l : L) (g : mstate) :
  (for_each xs canlii_record acc l g).2 = g.
Proof.
  revert acc. induction xs as [|x xs IH]; intros acc; cbn [for_each]; [done|].
  rewrite bind_run. unfold canlii_record at 1.
  destruct (sel_href x); cbn; [apply IH | done].
Qed.

Lemma justia_session_scoped (w : world) (keyword : string) (page : Z)
    (l : unit) (g : mstate) :
  exists evs,
    (fetch_justia_search_results w keyword page l g).2
      = mk_mstate (session g) (log g ++ evs) /\
    session_scoped (bool_decide (edge_new w (log g) = None)) evs.
Proof.
  unfold fetch_justia_search_results, call, fetch_justia_body. cbv zeta.
  set (steps := driver_do w (DGet (justia_search_url keyword page)) ≫= _).
  assert (Hsteps : drives_only steps) by (subst steps; drives_auto).
  destruct (browser_session_scoped w steps "Error fetching Justia results: " g Hsteps)
    as (evs & Hout & [a Hres] & Hsc).
  cbv zeta in Hout, Hres. rewrite bind_run.
  match type of Hout with
  | (?block ?l0 g).2 = _ => destruct (block l0 g) as [[r l'] g'] eqn:Hblock
  end.
  cbn in Hout, Hres. subst r g'. by exists evs.
Qed.

Lemma canlii_session_scoped (w : world) (keyword : string) (l : unit) (g : mstate) :
  exists evs,
    (fetch_canlii_search_results w keyword l g).2
      = mk_mstate (session g) (log g ++ evs) /\
    session_scoped (bool_decide (edge_new w (log g) = None)) evs.
Proof.
  unfold fetch_canlii_search_results, call, fetch_canlii_body. cbv zeta.
  set (steps := driver_do w (DGet canlii_base_url) ≫= _).
  assert (Hsteps : drives_only steps) by (subst steps; drives_auto).
  destruct (browser_session_scoped w steps "Error fetching CanLII results: " g Hsteps)
    as (evs & Hout & [a Hres] & Hsc).
  cbv zeta in Hout, Hres. rewrite bind_run.
  match type of Hout with
  | (?block ?l0 g).2 = _ => destruct (block l0 g) as [[r l'] g'] eqn:Hblock
  end.
  cbn in Hout, Hres. subst r g'. rewrite bind_run. cbn.
  exists evs. split; [|done].
  match goal with
  | |- context [for_each ?xs canlii_record ?acc ?l1 ?g1] =>
    pose proof (canlii_records_state xs acc l1 g1) as Hst;
    destruct (for_each xs canlii_record acc l1 g1) as [[r2 l2] g2]
  end.
  cbn in *. by subst.
Qed.

(** C6. Each call of [fetch_canlii_search_results] and of
    [fetch_justia_search_results] opens its browser session inside the call
    (the first thing it does is to create the headless driver, once), and
    if the driver was created the last thing the call does is to quit it,
    exactly once, whether the steps in between succeeded or failed; if the
    driver could not be created, nothing is driven and nothing is quit. The
    session state is not touched. *)
Theorem browser_session_released (w : world) (keyword : string) (page : Z)
    (l : unit) (g : mstate) :
  let created := bool_decide (edge_new w (log g) = None) in
  (exists evs,
     (fetch_canlii_search_results w keyword l g).2
       = mk_mstate (session g) (log g ++ evs) /\
     session_scoped created evs) /\
  (exists evs,
     (fetch_justia_search_results w keyword page l g).2
       = mk_mstate (session g) (log g ++ evs) /\
     session_scoped created evs).
Proof.
  split; [apply canlii_session_scoped | apply justia_session_scoped].
Qed.

(** ** How each source is reached *)













(** ** What the AustLII routine leaves *)

Lemma next_sibling_title_state {L} (sibs : list sibling) (l : L) (g : mstate) :
  (next_sibling_title sibs l g).2 = g /\ (next_sibling_title sibs l g).1.2 = l.
Proof.
  induction sibs as [|[|raw stripped|e] sibs IH]; cbn [next_sibling_title]; try done.
  destruct (non_empty raw); [|done]. by destruct (non_empty stripped).
Qed.

Lemma al_record_state {L} acc (a : al_anchor) (l : L) (g : mstate) :
  (al_record acc a l g).2 = g.
Proof.
  unfold al_record. cbv zeta.
  destruct (negb (contains "/cgi-bin/viewdoc/" (al_href a))); [done|].
  rewrite bind_run.
  destruct (negb (non_empty (al_text a))); [|done].
  pose proof (next_sibling_title_state (al_siblings a) l g) as [Hg Hl].
  by destruct (next_sibling_title (al_siblings a) l g) as [[[e|t] l'] g'].
Qed.

Lemma al_records_state {L} (xs : list al_anchor) acc (l : L) (g : mstate) :
  (for_each xs al_record acc l g).2 = g.
Proof.
  revert acc l. induction xs as [|x xs IH]; intros acc l; cbn [for_each]; [done|].
  rewrite bind_run. pose proof (al_record_state acc x l g) as Hx.
  destruct (al_record acc x l g) as [[[e|acc'] l'] g']; cbn in *; subst; [done|].
  apply IH.
Qed.

(** What the [try] block of the AustLII routine leaves: the response, or
    the placeholder after an error message. *)
Lemma austlii_try_outcome (w : world) (keyword : string) (l : unit) (g : mstate) :
  let url := austlii_search_url keyword in
  let get := EvHttpGet url (Some 20) in
  let block :=
    try_except
      (requests_get w url (Some 20) ≫= fun response =>
       raise_for_status url response ≫= fun _ => ret (inl response))
      is_request_exception
      (fun e =>
         st_ui (UError ("Error fetching AustLII results: " ++ exn_msg e)) ≫= fun _ =>
         ret (inr [austlii_unavailable])) in
  (exists resp,
     http_get w (log g) url = inr resp /\
     ~ (400 <= status_code resp < 600) /\
     block l g = (inr (inl resp), l, mk_mstate (session g) (log g ++ [get]))) \/
  (exists msg,
     block l g
     = (inr (inr [austlii_unavailable]), l,
        mk_mstate (session g)
          (log g ++ [get; EvUI (UError ("Error fetching AustLII results: " ++ msg))]))) \/
  (exists e,
     http_get w (log g) url = inl e /\ is_request_exception e = false /\
     block l g = (inl e, l, mk_mstate (session g) (log g ++ [get]))).
Proof.
  intros url get block. subst block.
  unfold try_except, requests_get, raise_for_status, st_ui. unfold_M. cbn.
  destruct (http_get w (log g) url) as [e|resp] eqn:Hget; cbn.
  - destruct (is_request_exception e) eqn:He; cbn.
    + right. left. exists (exn_msg e). by rewrite <- app_assoc.
    + right. right. by exists e.
  - destruct ((400 <=? status_code resp) && (status_code resp <? 500)) eqn:H4; cbn.
    { right. left. eexists. by rewrite <- app_assoc. }
    destruct ((500 <=? status_code resp) && (status_code resp <? 600)) eqn:H5; cbn.
    { right. left. eexists. by rewrite <- app_assoc. }
    left. exists resp. split_and!; [done | | done].
    apply andb_false_iff in H4, H5. lia.
Qed.

(** ** The GETs of a call *)

Ltac case_driver_step :=
  match goal with
  | |- context [driver_step ?w ?h ?op] =>
    let E := fresh "Hstep" in destruct (driver_step w h op) eqn:E; cbn
  end.












(** ** Links of the records *)

Lemma ik_link_absolute href : startswith (ik_link href) "http" = true.
Proof. unfold ik_link. by destruct (startswith href "http") eqn:E. Qed.

Lemma al_link_absolute href : startswith (al_link href) "http" = true.
Proof. unfold al_link. by destruct (startswith href "http") eqn:E. Qed.

Lemma canlii_link_absolute href : startswith (canlii_link href) "http" = true.
Proof. unfold canlii_link. by destruct (startswith href "http") eqn:E. Qed.

Lemma ik_records_absolute (divs : list ik_div) (acc : list result) :
  Forall (fun r => absolute r = true) acc ->
  Forall (fun r => absolute r = true) (fold_left ik_record divs acc).
Proof.
  revert acc. induction divs as [|d divs IH]; intros acc Hacc; [done|].
  cbn [fold_left]. apply IH. unfold ik_record.
  destruct (div_anchor d) as [[text href]|]; [|done].
  apply Forall_app. split; [done|]. constructor; [|done].
  apply ik_link_absolute.
Qed.

(** What a loop returns satisfies an invariant of its turns. *)
Lemma for_each_result {L A B} (I : B -> Prop) (body : B -> A -> M L B)
    (xs : list A) :
  (forall acc x l g v, I acc -> (body acc x l g).1.1 = inr v -> I v) ->
  forall acc l g v, I acc -> (for_each xs body acc l g).1.1 = inr v -> I v.
Proof.
  intros Hbody. induction xs as [|x xs IH]; intros acc l g v Hacc; cbn [for_each].
  - by intros [= <-].
  - rewrite bind_run. specialize (Hbody acc x l g).
    destruct (body acc x l g) as [[[e|acc'] l'] g']; cbn in *; [done|].
    apply IH. by apply Hbody.
Qed.

Lemma al_record_absolute {L} acc (a : al_anchor) (l : L) g v :
  Forall (fun r => absolute r = true) acc ->
  (al_record acc a l g).1.1 = inr v ->
  Forall (fun r => absolute r = true) v.
Proof.
  intros Hacc. unfold al_record. cbv zeta.
  destruct (negb (contains "/cgi-bin/viewdoc/" (al_href a))); [by intros [= <-]|].
  rewrite bind_run.
  match goal with
  | |- context [(if ?c then ?m1 else ?m2) l g] =>
    destruct ((if c then m1 else m2) l g) as [[[e|t] l'] g']
  end; cbn; [done|].
  intros [= <-]. apply Forall_app. split; [done|]. constructor; [|done].
  apply al_link_absolute.
Qed.

Lemma canlii_record_absolute {L} acc (a : sel_anchor) (l : L) g v :
  Forall (fun r => absolute r = true) acc ->
  (canlii_record acc a l g).1.1 = inr v ->
  Forall (fun r => absolute r = true) v.
Proof.
  intros Hacc. unfold canlii_record.
  destruct (sel_href a) as [href|]; cbn; [|done].
  intros [= <-]. apply Forall_app. split; [done|]. constructor; [|done].
  apply canlii_link_absolute.
Qed.

Lemma ik_links_absolute w keyword page l g rs :
  (fetch_indian_kanoon_results w keyword page l g).1.1 = inr rs ->
  Forall (fun r => absolute r = true) rs.
Proof.
  unfold fetch_indian_kanoon_results, requests_get. cbv zeta.
  unfold_M. cbn.
  destruct (http_get w (log g) (ik_search_url keyword page)) as [e|resp]; cbn; [done|].
  destruct (negb (status_code resp =? 200)); cbn; intros [= <-]; [done|].
  by apply ik_records_absolute.
Qed.

Lemma canlii_links_absolute w keyword l g rs :
  (fetch_canlii_search_results w keyword l g).1.1 = inr rs ->
  Forall (fun r => absolute r = true) rs.
Proof.
  unfold fetch_canlii_search_results, call, fetch_canlii_body. cbv zeta.
  rewrite bind_run.
  match goal with
  | |- context [finally ?b ?c ?l0 g] => destruct (finally b c l0 g) as [[[e|[]] l'] g']
  end; [done|].
  rewrite bind_run. cbn.
  destruct (for_each _ _ _ l' g') as [[r l2] g2] eqn:Hloop. cbn. intros Hr. subst r.
  pose proof (for_each_result (fun v => Forall (fun r => absolute r = true) v)
                canlii_record (anchors_result_uuid (html l'))
                (fun acc x l0 g0 v => canlii_record_absolute acc x l0 g0 v)
                [] l' g' rs (Forall_nil_2 _)) as Hall.
  rewrite Hloop in Hall. exact (Hall eq_refl).
Qed.

Lemma austlii_links_absolute_or_placeholder w keyword l g rs :
  (fetch_austlii_search_results w keyword l g).1.1 = inr rs ->
  Forall (fun r => absolute r = true) rs \/
  rs = [austlii_unavailable] \/ rs = [austlii_no_results].
Proof.
  unfold fetch_austlii_search_results. cbv zeta. rewrite bind_run.
  match goal with
  | |- context [try_except ?b ?c ?h l g] =>
    destruct (try_except b c h l g) as [[[e|[resp|early]] l'] g'] eqn:Htry
  end.
  - done.
  - rewrite bind_run.
    destruct (for_each _ _ _ l' g') as [[[e|results] l2] g2] eqn:Hloop; [done|].
    pose proof (for_each_result (fun v => Forall (fun r => absolute r = true) v)
                  al_record (anchors_with_href (content resp))
                  (fun acc x l0 g0 v => al_record_absolute acc x l0 g0 v)
                  [] l' g' results (Forall_nil_2 _)) as Hall.
    rewrite Hloop in Hall. specialize (Hall eq_refl).
    intros [= <-]. destruct results; auto.
  - intros [= <-]. right. left.
    unfold try_except in Htry. rewrite bind_run in Htry.
    destruct (requests_get w _ _ l g) as [[[e|resp] lb] gb].
    + destruct (is_request_exception e); [|done].
      unfold st_ui in Htry. unfold_M. cbn in Htry. by injection Htry as <-.
    + rewrite bind_run in Htry.
      destruct (raise_for_status _ resp lb gb) as [[[e|[]] lc] gc]; [|done].
      destruct (is_request_exception e); [|done].
      unfold st_ui in Htry. unfold_M. cbn in Htry. by injection Htry as <-.
Qed.

(** C5, as the code has it. Every record returned by the Indian Kanoon and
    CanLII routines, and every record that the AustLII routine builds from
    an anchor of the page, has a link that begins with "http": relative
    hrefs are prefixed with the site. The placeholder records of AustLII
    (connection error, or no matching anchor) carry the empty link and are
    returned alone. *)
Theorem links_absolute_or_placeholder (w : world) (src : source)
    (keyword : string) (page : Z) (l : unit) (g : mstate) (rs : list result) :
  src <> Justia ->
  (fetch w src keyword page l g).1.1 = inr rs ->
  Forall (fun r => absolute r = true) rs \/
  src = AustLII /\ exists r, rs = [r] /\ link r = "" /\
                             (r = austlii_unavailable \/ r = austlii_no_results).
Proof.
  intros Hsrc Hrs. destruct src; cbn [fetch] in Hrs; [| | |done].
  - left. by eapply ik_links_absolute.
  - destruct (austlii_links_absolute_or_placeholder _ _ _ _ _ Hrs) as [?|[->| ->]];
      [by left | right | right]; (split; [done|]); eexists; eauto.
  - left. by eapply canlii_links_absolute.
Qed.

Lemma links_absolute_relative_href :
  let g := mk_mstate empty_session [] in
  let oakes :=
    mk_result "R. v. Oakes" "https://www.canlii.org/en/ca/scc/doc/1986/1986canlii46/"
      None in
  CanLII <> Justia /\
  (fetch Example.ik_unreachable CanLII Example.kw 1 tt g).1.1 = inr [oakes] /\
  Forall (fun r => absolute r = true) [oakes].
Proof.
  intros g oakes.
  assert (Hsrc : CanLII <> Justia) by discriminate.
  assert (Hrs : (fetch Example.ik_unreachable CanLII Example.kw 1 tt g).1.1
                = inr [oakes]) by (vm_compute; reflexivity).
  split_and!; [exact Hsrc | exact Hrs |].
  destruct (links_absolute_or_placeholder Example.ik_unreachable CanLII Example.kw 1
              tt g [oakes] Hsrc Hrs) as [Habs | [Hal _]].
  - exact Habs.
  - discriminate Hal.
Defined.

(** The link of C5 that is not absolute: with no network, the AustLII
    routine returns its placeholder, whose link is empty. *)
Lemma austlii_placeholder_link_not_absolute :
  fetch_outcome Example.offline AustLII Example.kw 1 = inr [austlii_unavailable] /\
  link austlii_unavailable = "" /\
  ~ Forall (fun r => absolute r = true) [austlii_unavailable].
Proof.
  split_and!; [vm_compute; reflexivity | reflexivity |].
  intros H. apply Forall_cons in H as [H _]. discriminate H.
Qed.

(** The Justia routine copies the href of each anchor as it is, and uses
    the empty string when there is none. *)
Lemma justia_record_keeps_href (acc : list result) (a : sel_anchor) :
  justia_record acc a
  = (acc ++ [mk_result (sel_text a) (default "" (sel_href a)) None])%list.
Proof. unfold justia_record. by destruct (sel_href a). Qed.

(** ** Reruns of the script *)

(** [x = st.session_state.f; st.session_state.f = h(x); ...] *)
Lemma keeps_read_modify {A} (J : mstate -> Prop) (field : session_state -> option A)
    name (f : A -> session_state -> session_state) (after : M unit unit) :
  (forall g v, J g -> field (session g) = Some v ->
     J (mk_mstate (f v (session g)) (log g))) ->
  keeps J after ->
  keeps J (get_attr field name ≫= fun v => modify_session (f v) ≫= fun _ => after).
Proof.
  intros Hmod Hafter l g HJ. unfold_M. cbn.
  destruct (field (session g)) as [v|] eqn:Hv; cbn; [|done].
  by apply Hafter, Hmod.
Qed.

(** The "Previous" button: the page number goes down only when it is
    greater than 1. *)
Lemma keeps_previous (J : mstate -> Prop) (field : session_state -> option Z)
    name (set : Z -> session_state -> session_state) (clicked : bool)
    (after rest : M unit unit) :
  (forall g p, J g -> field (session g) = Some p -> 1 < p ->
     J (mk_mstate (set (p - 1) (session g)) (log g))) ->
  keeps J after ->
  keeps J rest ->
  keeps J
    ((if clicked then get_attr field name ≫= fun pg => ret (1 <? pg) else ret false)
       ≫= fun go_back =>
     when go_back
       (get_attr field name ≫= fun pg =>
        modify_session (set (pg - 1)) ≫= fun _ => after)
       ≫= fun _ => rest).
Proof.
  intros Hmod Hafter Hrest l g HJ. rewrite bind_run.
  destruct clicked.
  - unfold_M. cbn.
    destruct (field (session g)) as [p|] eqn:Hp; cbn; [|done].
    destruct (Z.ltb_spec 1 p) as [Hlt|_]; cbn.
    + rewrite Hp. cbn.
      pose proof (Hafter l _ (Hmod g p HJ Hp Hlt)) as HJ'.
      destruct (after l _) as [[[e|[]] l'] g']; cbn in *; [done|].
      by apply Hrest.
    + by apply Hrest.
  - unfold_M. cbn. by apply Hrest.
Qed.

Ltac keeps_step :=
  first
    [ apply keeps_ret | apply keeps_mret | apply keeps_raise
    | apply keeps_get_session | apply keeps_get_attr | apply keeps_get_log
    | apply keeps_when; intros ?
    | apply keeps_bind; [|intros ?]
    | match goal with
      | |- keeps _ (if ?b then _ else _) => destruct b eqn:?
      | |- keeps _ (match ?x with _ => _ end) => destruct x eqn:?
      end ].

Section PagesInvariant.

Variable w : world.

#[local] Abbreviation J := (fun g : mstate => pages_set_from_one (session g)).

Ltac pages_leaf :=
  first
    [ apply keeps_emit; intros g H; exact H
    | apply keeps_modify_session; intros g (p & q & Hp & Hq & Hp1 & Hq1);
      first [ by exists p, q | by exists 1, q | by exists p, 1 ]
    | apply keeps_run_format; intros g H;
      first [ rewrite format_indian_kanoon_results_session
            | rewrite format_justia_results_session ];
      match goal with |- context [match ?rs with _ => _ end] => destruct rs end;
      exact H
    | eapply emits_keeps;
      [ first [ apply fetch_indian_kanoon_results_emits
              | apply (fetch_austlii_search_results_emits w _ 1)
              | apply (fetch_canlii_search_results_emits w _ 1)
              | apply fetch_justia_search_results_emits ]
      | intros g evs H _; exact H ] ].

Ltac pages_auto := repeat first [ pages_leaf | keeps_step ].

Lemma refetch_ik_pages : keeps J (refetch_ik w).
Proof. unfold refetch_ik. pages_auto. Qed.

Lemma refetch_justia_pages : keeps J (refetch_justia w).
Proof. unfold refetch_justia. pages_auto. Qed.

Lemma show_ik_pages out : keeps J (show_ik out).
Proof. unfold show_ik, st_ui. pages_auto. Qed.

Lemma show_justia_pages out : keeps J (show_justia out).
Proof. unfold show_justia, st_ui. pages_auto. Qed.

(** [if "f" not in st.session_state: st.session_state.f = v] *)
Lemma hoare_init_field {A} (P Q : mstate -> Prop)
    (field : session_state -> option A) (set : A -> session_state -> session_state)
    (v : A) :
  (forall g, P g ->
     match field (session g) with
     | None => Q (mk_mstate (set v (session g)) (log g))
     | Some _ => Q g
     end) ->
  hoare P (get_session (L:=unit) ≫= fun s =>
           when (absent (field s)) (modify_session (set v)))
    (fun _ => Q).
Proof.
  intros H l g HP. specialize (H g HP). unfold_M. cbn.
  by destruct (field (session g)).
Qed.

Lemma hoare_init_field_then {A B} (P Q : mstate -> Prop) R
    (field : session_state -> option A) (set : A -> session_state -> session_state)
    (v : A) (rest : M unit B) :
  (forall g, P g ->
     match field (session g) with
     | None => Q (mk_mstate (set v (session g)) (log g))
     | Some _ => Q g
     end) ->
  hoare Q rest R ->
  hoare P (get_session ≫= fun s =>
           when (absent (field s)) (modify_session (set v)) ≫= fun _ => rest) R.
Proof.
  intros H Hrest l g HP. specialize (H g HP). unfold_M. cbn.
  destruct (field (session g)); cbn; by apply Hrest.
Qed.

(** The initialisation sets the counters that are absent to 1. *)
Lemma init_session_pages :
  hoare (fun g => pages_at_least_one (session g)) init_session (fun _ => J).
Proof.
  unfold init_session.
  apply (hoare_init_field_then _ (fun g => pages_at_least_one (session g))).
  { intros g H. by destruct (keyword (session g)). }
  apply (hoare_init_field_then _ (fun g =>
           (exists p, ik_page (session g) = Some p /\ 1 <= p) /\
           (forall q, justia_page (session g) = Some q -> 1 <= q))).
  { intros g [Hik Hju].
    destruct (ik_page (session g)) as [p|] eqn:Hp; cbn.
    - split; [exists p; split; [done | by apply Hik] | done].
    - split; [by exists 1 | done]. }
  apply (hoare_init_field_then _ J).
  { intros g [(p & Hp & Hp1) Hju].
    destruct (justia_page (session g)) as [q|] eqn:Hq; cbn.
    - exists p, q. split_and!; [done | done | done | by apply Hju].
    - by exists p, 1. }
  apply hoare_init_field. intros g (p & q & Hp & Hq & Hp1 & Hq1).
  destruct (results_fetched (session g)); by exists p, q.
Qed.

Lemma on_search_pages inp : keeps J (on_search w inp).
Proof.
  unfold on_search.
  repeat first
    [ apply refetch_ik_pages | apply refetch_justia_pages | pages_leaf | keeps_step ].
Qed.

Lemma display_ik_pages inp : keeps J (display_ik w inp).
Proof.
  unfold display_ik.
  apply keeps_bind; [apply show_ik_pages | intros _].
  apply keeps_previous.
  - intros g p (p' & q & Hp & Hq & Hp1 & Hq1) Hpg Hlt. exists (p - 1), q.
    split_and!; [done | done | lia | done].
  - apply keeps_bind; [apply refetch_ik_pages | intros _; apply show_ik_pages].
  - apply keeps_bind; [apply keeps_get_attr | intros pg].
    apply keeps_bind; [unfold st_ui; pages_leaf | intros _].
    apply keeps_bind; [|intros _; unfold st_ui; pages_leaf].
    apply keeps_when. intros _.
    apply (keeps_read_modify J ik_page "ik_page" (fun pg => set_ik_page (pg + 1))).
    + intros g p (p' & q & Hp & Hq & Hp1 & Hq1) Hpg. exists (p + 1), q.
      cbn in Hpg. assert (p = p') as -> by congruence.
      split_and!; [done | done | lia | done].
    + apply keeps_bind; [apply refetch_ik_pages | intros _; apply show_ik_pages].
Qed.

Lemma display_justia_pages inp : keeps J (display_justia w inp).
Proof.
  unfold display_justia.
  apply keeps_bind; [unfold st_ui; pages_leaf | intros _].
  apply keeps_bind; [apply show_justia_pages | intros _].
  apply keeps_previous.
  - intros g q (p & q' & Hp & Hq & Hp1 & Hq1) Hpg Hlt. exists p, (q - 1).
    split_and!; [done | done | done | lia].
  - apply keeps_bind; [apply refetch_justia_pages | intros _; apply show_justia_pages].
  - apply keeps_bind; [apply keeps_get_attr | intros pg].
    apply keeps_bind; [unfold st_ui; pages_leaf | intros _].
    apply keeps_when. intros _.
    apply (keeps_read_modify J justia_page "justia_page"
             (fun pg => set_justia_page (pg + 1))).
    + intros g q (p & q' & Hp & Hq & Hp1 & Hq1) Hpg. exists p, (q + 1).
      cbn in Hpg. assert (q = q') as -> by congruence.
      split_and!; [done | done | done | lia].
    + apply keeps_bind; [apply refetch_justia_pages | intros _; apply show_justia_pages].
Qed.

Lemma display_generic_pages field name source_name :
  keeps J (display_generic field name source_name).
Proof. unfold display_generic, st_ui. pages_auto. Qed.

(** One rerun: whatever the counters were, if they were not below 1 they
    are both set and not below 1 when the script ends or is aborted. *)
Lemma main_pages inp :
  hoare (fun g => pages_at_least_one (session g)) (main w inp) (fun _ => J).
Proof.
  unfold main, st_ui.
  apply (hoare_bind _ (fun r g => (exists a, r = inr a) /\ pages_at_least_one (session g)));
    [intros l g H; split; [by eexists | exact H] | intros [] | by intros e g [[a Ha] _]].
  apply (hoare_bind _ (fun r g => (exists a, r = inr a) /\ pages_at_least_one (session g)));
    [intros l g [_ H]; split; [by eexists | exact H] | intros []
    | by intros e g [[a Ha] _]].
  apply (hoare_bind _ (fun _ => J));
    [eapply hoare_weaken; [apply init_session_pages | by intros g [_ H] | done]
    | intros _ | done].
  change (keeps J
    (when (search_button inp) (on_search w inp) ≫= fun _ =>
     get_attr results_fetched "results_fetched" ≫= fun fetched =>
     when fetched
       (when (search_ik inp) (display_ik w inp) ≫= fun _ =>
        when (search_al inp)
          (display_generic austlii_results "austlii_results" "AustLII") ≫= fun _ =>
        when (search_cl inp)
          (display_generic canlii_results "canlii_results" "CanLII") ≫= fun _ =>
        when (search_justia inp) (display_justia w inp)))).
  repeat first
    [ apply on_search_pages | apply display_ik_pages
    | apply display_justia_pages | apply display_generic_pages
    | pages_leaf | keeps_step ].
Qed.

End PagesInvariant.

Lemma pages_set_from_one_at_least_one s :
  pages_set_from_one s -> pages_at_least_one s.
Proof.
  intros (p & q & Hp & Hq & Hp1 & Hq1).
  split; intros x Hx; [assert (x = p) as -> by congruence
                      |assert (x = q) as -> by congruence]; done.
Qed.

(** C8. In every session that reruns of the script can reach, whatever
    the user clicks and whatever the sites answer or fail to answer, the
    page counters [ik_page] and [justia_page] are at least 1: they are
    absent only before the first run, which sets them to 1; a search
    resets them to 1, "Next" adds 1 and "Previous" subtracts 1 only from a
    counter greater than 1. *)
Theorem pages_stay_at_least_one (s : session_state) :
  reachable s ->
  pages_at_least_one s /\
  forall w inp, pages_set_from_one (run_main w inp s).1.2.
Proof.
  intros Hs.
  assert (Hrun : forall s0 w inp,
            pages_at_least_one s0 -> pages_set_from_one (run_main w inp s0).1.2).
  { intros s0 w inp H0. unfold run_main.
    pose proof (main_pages w inp tt (mk_mstate s0 []) H0) as Hmain.
    by destruct (main w inp tt (mk_mstate s0 [])) as [[r l] g]. }
  assert (Hweak : pages_at_least_one s).
  { induction Hs as [|w inp s Hs IH].
    - split; intros p Hp; discriminate Hp.
    - by apply pages_set_from_one_at_least_one, Hrun. }
  split; [exact Hweak | intros w inp; by apply Hrun].
Qed.

Lemma pages_after_previous_on_first_page :
  let s1 := (run_main Example.site_up Example.click_search empty_session).1.2 in
  let s2 := (run_main Example.site_up Example.click_prev s1).1.2 in
  reachable s1 /\ pages_at_least_one s1 /\ pages_set_from_one s2 /\
  ik_page s2 = Some 1 /\ justia_page s2 = Some 1.
Proof.
  intros s1 s2.
  assert (Hs : reachable s1) by (subst s1; apply reach_rerun, reach_start).
  destruct (pages_stay_at_least_one s1 Hs) as [Hweak Hrun].
  split_and!; [exact Hs | exact Hweak | exact (Hrun Example.site_up Example.click_prev)
              | vm_compute; reflexivity | vm_compute; reflexivity].
Defined.

(** ** Disabled sources *)

(** [text = format(...); st.markdown(text)] *)
Lemma keeps_format_show (J : mstate -> Prop) f (out : string -> ui_event) :
  (forall g, J g ->
     J (mk_mstate (f (session g)).1 (log g ++ [EvUI (out (f (session g)).2)]))) ->
  keeps J (run_format (L:=unit) f ≫= fun text => st_ui (out text)).
Proof.
  intros H l g HJ. specialize (H g HJ). rewrite bind_run. unfold run_format, st_ui.
  unfold_M. by destruct (f (session g)) as [s' text].
Qed.

Lemma prefix_comparable (p1 p2 s : string) :
  String.prefix p1 s = true -> String.prefix p2 s = true ->
  String.prefix p1 p2 = true \/ String.prefix p2 p1 = true.
Proof.
  revert p1 p2.
  induction s as [|c s IH]; intros [|a p1] [|b p2]; cbn;
    try (by left); try (by right); try done.
  destruct (ascii_dec a c) as [->|]; [|done].
  destruct (ascii_dec b c) as [->|]; [|done].
  destruct (ascii_dec c c); [|done]. apply IH.
Qed.

Lemma startswith_other (s p1 p2 : string) :
  startswith s p1 = true ->
  String.prefix p1 p2 = false -> String.prefix p2 p1 = false ->
  startswith s p2 = false.
Proof.
  unfold startswith. intros H1 Hno1 Hno2.
  destruct (String.prefix p2 s) eqn:H2; [|done].
  destruct (prefix_comparable p1 p2 s H1 H2) as [H|H]; congruence.
Qed.

(** What a fetch routine does never concerns another source. *)
Lemma may_emit_not_concerns (from src : source) keyword page (e : event) :
  may_emit from keyword page e = true -> src <> from -> concerns src e = false.
Proof.
  intros He Hne.
  destruct e as [url timeout|args|op| |u].
  - destruct from; cbn in He; try done.
    + destruct timeout; [done|]. apply String.eqb_eq in He as ->.
      unfold ik_search_url. cbv zeta.
      destruct src; [done| | |]; by destruct (page =? 1).
    + apply andb_true_iff in He as [He _].
      apply String.eqb_eq in He as ->. by destruct src.
  - done.
  - destruct op as [url| | | | |]; try done.
    destruct from; cbn in He; try done; apply String.eqb_eq in He as ->;
      by destruct src.
  - done.
  - destruct u as [| | |s| |]; try (by destruct from).
    destruct from; cbn in He; try done; destruct src; try done; cbn;
      (eapply startswith_other; [exact He | reflexivity | reflexivity]).
Qed.

Lemma ik_text_not_shown rs pg s (src : source) :
  src <> IndianKanoon ->
  shown_for src (UMarkdown (format_indian_kanoon_results rs pg s).2) = false.
Proof.
  intros Hne. destruct rs as [|r rs]; [by destruct src|].
  unfold format_indian_kanoon_results. cbn [snd].
  rewrite (fold_entries_app _ entry_with_details_app), !string_app_assoc.
  generalize (fold_left entry_with_details
                (enumerate (cumulative_before
                   (<[pg:=len (r :: rs)]> match ik_counts s with
                                          | Some c => c
                                          | None => ∅
                                          end) pg + 1) (r :: rs)) "").
  generalize (str_of_int pg). intros page_text rest. by destruct src.
Qed.

Lemma generic_text_not_shown rs (name : string) (src : source) :
  (src <> AustLII /\ name = "AustLII") \/ (src <> CanLII /\ name = "CanLII") ->
  shown_for src (UMarkdown (format_results rs name)) = false.
Proof.
  intros Hname. unfold format_results.
  destruct rs as [|r rs].
  - destruct Hname as [[Hne ->]|[Hne ->]]; by destruct src.
  - rewrite (fold_entries_app _ entry_with_details_app), !string_app_assoc.
    generalize (fold_left entry_with_details (enumerate 1 (r :: rs)) "").
    intros rest. destruct Hname as [[Hne ->]|[Hne ->]]; by destruct src.
Qed.

Section Disabled.

Variable w : world.
Variable src : source.

#[local] Abbreviation quiet := (quiet src).

Lemma quiet_emit {L} (e : event) :
  concerns src e = false -> keeps quiet (emit (L:=L) e).
Proof.
  intros He. apply keeps_emit. intros g H. apply Forall_app.
  split; [exact H | by constructor].
Qed.

Lemma quiet_fetch (from : source) keyword page :
  src <> from -> keeps quiet (fetch w from keyword page).
Proof.
  intros Hne. eapply emits_keeps; [apply fetch_emits|].
  intros g evs H Hevs. apply Forall_app. split; [exact H|].
  eapply Forall_impl; [exact Hevs|]. intros e He. cbv beta in He.
  by eapply may_emit_not_concerns.
Qed.

Ltac quiet_leaf :=
  first
    [ apply keeps_modify_session; intros g H; exact H
    | apply quiet_emit; solve [ done | by destruct src ] ].

Ltac quiet_auto := repeat first [ quiet_leaf | keeps_step ].

Lemma refetch_ik_quiet : src <> IndianKanoon -> keeps quiet (refetch_ik w).
Proof.
  intros Hne. unfold refetch_ik.
  apply keeps_bind; [apply keeps_get_attr | intros kw].
  apply keeps_bind; [apply keeps_get_attr | intros pg].
  apply keeps_bind; [apply (quiet_fetch IndianKanoon kw pg Hne) | intros r].
  quiet_leaf.
Qed.

Lemma refetch_justia_quiet : src <> Justia -> keeps quiet (refetch_justia w).
Proof.
  intros Hne. unfold refetch_justia.
  apply keeps_bind; [apply keeps_get_attr | intros kw].
  apply keeps_bind; [apply keeps_get_attr | intros pg].
  apply keeps_bind; [apply (quiet_fetch Justia kw pg Hne) | intros r].
  quiet_leaf.
Qed.

Lemma show_ik_quiet (out : string -> ui_event) :
  src <> IndianKanoon ->
  out = UMarkdown \/ out = UContainerMarkdown IkContainer ->
  keeps quiet (show_ik out).
Proof.
  intros Hne Hout. unfold show_ik.
  apply keeps_bind; [apply keeps_get_attr | intros rs].
  apply keeps_bind; [apply keeps_get_attr | intros pg].
  apply keeps_format_show. intros g H. apply Forall_app. split; [exact H|].
  constructor; [|done]. cbn [concerns].
  destruct Hout as [-> | ->]; [by apply ik_text_not_shown | by destruct src].
Qed.

Lemma show_justia_quiet :
  src <> Justia -> keeps quiet (show_justia (UContainerMarkdown JustiaContainer)).
Proof.
  intros Hne. unfold show_justia.
  apply keeps_bind; [apply keeps_get_attr | intros rs].
  apply keeps_bind; [apply keeps_get_attr | intros pg].
  apply keeps_format_show. intros g H. apply Forall_app. split; [exact H|].
  constructor; [|done]. by destruct src.
Qed.

Lemma display_ik_quiet inp : src <> IndianKanoon -> keeps quiet (display_ik w inp).
Proof.
  intros Hne. unfold display_ik.
  apply keeps_bind; [apply show_ik_quiet; auto | intros _].
  apply keeps_previous.
  - intros g p H _ _. exact H.
  - apply keeps_bind; [by apply refetch_ik_quiet | intros _; apply show_ik_quiet; auto].
  - apply keeps_bind; [apply keeps_get_attr | intros pg].
    apply keeps_bind; [unfold st_ui; quiet_leaf | intros _].
    apply keeps_bind; [|intros _; unfold st_ui; quiet_leaf].
    apply keeps_when. intros _.
    apply (keeps_read_modify quiet ik_page "ik_page" (fun pg => set_ik_page (pg + 1))).
    + intros g p H _. exact H.
    + apply keeps_bind; [by apply refetch_ik_quiet | intros _; apply show_ik_quiet; auto].
Qed.

Lemma display_justia_quiet inp : src <> Justia -> keeps quiet (display_justia w inp).
Proof.
  intros Hne. unfold display_justia.
  apply keeps_bind; [unfold st_ui; quiet_leaf | intros _].
  apply keeps_bind; [by apply show_justia_quiet | intros _].
  apply keeps_previous.
  - intros g p H _ _. exact H.
  - apply keeps_bind; [by apply refetch_justia_quiet | intros _; by apply show_justia_quiet].
  - apply keeps_bind; [apply keeps_get_attr | intros pg].
    apply keeps_bind; [unfold st_ui; quiet_leaf | intros _].
    apply keeps_when. intros _.
    apply (keeps_read_modify quiet justia_page "justia_page"
             (fun pg => set_justia_page (pg + 1))).
    + intros g p H _. exact H.
    + apply keeps_bind; [by apply refetch_justia_quiet | intros _; by apply show_justia_quiet].
Qed.

Lemma display_generic_quiet field name source_name :
  (src <> AustLII /\ source_name = "AustLII") \/
  (src <> CanLII /\ source_name = "CanLII") ->
  keeps quiet (display_generic field name source_name).
Proof.
  intros Hname. unfold display_generic, st_ui.
  apply keeps_bind; [apply keeps_get_attr | intros rs].
  apply keeps_bind; [|intros _; quiet_leaf].
  apply quiet_emit. by apply generic_text_not_shown.
Qed.

Lemma enabled_other inp (from : source) :
  enabled inp src = false -> enabled inp from = true -> src <> from.
Proof. intros Hoff Hon ->. congruence. Qed.

Lemma on_search_quiet inp : enabled inp src = false -> keeps quiet (on_search w inp).
Proof.
  intros Hoff. unfold on_search.
  apply keeps_bind; [quiet_leaf | intros _].
  apply keeps_bind; [|intros _].
  { destruct (search_ik inp) eqn:Hon; [|quiet_leaf].
    apply keeps_bind; [quiet_leaf | intros _].
    apply refetch_ik_quiet. by apply (enabled_other inp IndianKanoon). }
  apply keeps_bind; [|intros _].
  { destruct (search_al inp) eqn:Hon; [|quiet_leaf].
    apply keeps_bind; [apply keeps_get_attr | intros kw].
    apply keeps_bind; [|intros r; quiet_leaf].
    apply (quiet_fetch AustLII kw 1). by apply (enabled_other inp AustLII). }
  apply keeps_bind; [|intros _].
  { destruct (search_cl inp) eqn:Hon; [|quiet_leaf].
    apply keeps_bind; [apply keeps_get_attr | intros kw].
    apply keeps_bind; [|intros r; quiet_leaf].
    apply (quiet_fetch CanLII kw 1). by apply (enabled_other inp CanLII). }
  apply keeps_bind; [|intros _].
  { destruct (search_justia inp) eqn:Hon; [|quiet_leaf].
    apply keeps_bind; [quiet_leaf | intros _].
    apply refetch_justia_quiet. by apply (enabled_other inp Justia). }
  quiet_auto.
Qed.

Lemma display_quiet inp :
  enabled inp src = false ->
  keeps quiet
    (when (search_ik inp) (display_ik w inp) ≫= fun _ =>
     when (search_al inp) (display_generic austlii_results "austlii_results" "AustLII")
       ≫= fun _ =>
     when (search_cl inp) (display_generic canlii_results "canlii_results" "CanLII")
       ≫= fun _ =>
     when (search_justia inp) (display_justia w inp)).
Proof.
  intros Hoff.
  apply keeps_bind; [|intros _].
  { apply keeps_when. intros Hon. apply display_ik_quiet.
    by apply (enabled_other inp IndianKanoon). }
  apply keeps_bind; [|intros _].
  { apply keeps_when. intros Hon. apply display_generic_quiet. left.
    split; [by apply (enabled_other inp AustLII) | done]. }
  apply keeps_bind; [|intros _].
  { apply keeps_when. intros Hon. apply display_generic_quiet. right.
    split; [by apply (enabled_other inp CanLII) | done]. }
  apply keeps_when. intros Hon. apply display_justia_quiet.
  by apply (enabled_other inp Justia).
Qed.

Lemma main_quiet inp : enabled inp src = false -> keeps quiet (main w inp).
Proof.
  intros Hoff. unfold main, st_ui.
  apply keeps_bind; [quiet_leaf | intros _].
  apply keeps_bind; [quiet_leaf | intros _].
  apply keeps_bind; [unfold init_session; quiet_auto | intros _].
  apply keeps_bind; [apply keeps_when; intros _; by apply on_search_quiet | intros _].
  apply keeps_bind; [apply keeps_get_attr | intros fetched].
  apply keeps_when. intros _. by apply display_quiet.
Qed.

End Disabled.

Section Cleared.

Variable w : world.
Variable src : source.

#[local] Abbreviation cleared := (cleared src).

Lemma cleared_fetch (from : source) keyword page :
  keeps cleared (fetch w from keyword page).
Proof. eapply emits_keeps; [apply fetch_emits|]. intros g evs H _. exact H. Qed.

Ltac cleared_leaf :=
  first
    [ apply keeps_emit; intros g H; exact H
    | apply keeps_modify_session; intros g H; unfold cleared in *;
      destruct src; solve [ exact H | done ] ].

Ltac cleared_auto := repeat first [ cleared_leaf | keeps_step ].

Lemma cleared_format_show_ik rs pg out :
  keeps cleared
    (run_format (L:=unit) (format_indian_kanoon_results rs pg) ≫= fun text =>
     st_ui (out text)).
Proof.
  apply keeps_format_show. intros g H. unfold cleared in *. cbn [session].
  rewrite format_indian_kanoon_results_session. destruct rs; [done|]. by destruct src.
Qed.

Lemma cleared_format_show_justia rs pg out :
  keeps cleared
    (run_format (L:=unit) (format_justia_results rs pg) ≫= fun text =>
     st_ui (out text)).
Proof.
  apply keeps_format_show. intros g H. unfold cleared in *. cbn [session].
  rewrite format_justia_results_session. destruct rs; [done|]. by destruct src.
Qed.

Lemma refetch_ik_cleared : src <> IndianKanoon -> keeps cleared (refetch_ik w).
Proof.
  intros Hne. unfold refetch_ik.
  apply keeps_bind; [apply keeps_get_attr | intros kw].
  apply keeps_bind; [apply keeps_get_attr | intros pg].
  apply keeps_bind; [apply (cleared_fetch IndianKanoon kw pg) | intros r].
  cleared_leaf.
Qed.

Lemma refetch_justia_cleared : src <> Justia -> keeps cleared (refetch_justia w).
Proof.
  intros Hne. unfold refetch_justia.
  apply keeps_bind; [apply keeps_get_attr | intros kw].
  apply keeps_bind; [apply keeps_get_attr | intros pg].
  apply keeps_bind; [apply (cleared_fetch Justia kw pg) | intros r].
  cleared_leaf.
Qed.

Lemma show_ik_cleared out : keeps cleared (show_ik out).
Proof.
  unfold show_ik.
  apply keeps_bind; [apply keeps_get_attr | intros rs].
  apply keeps_bind; [apply keeps_get_attr | intros pg].
  apply cleared_format_show_ik.
Qed.

Lemma show_justia_cleared out : keeps cleared (show_justia out).
Proof.
  unfold show_justia.
  apply keeps_bind; [apply keeps_get_attr | intros rs].
  apply keeps_bind; [apply keeps_get_attr | intros pg].
  apply cleared_format_show_justia.
Qed.

Lemma display_ik_cleared inp : src <> IndianKanoon -> keeps cleared (display_ik w inp).
Proof.
  intros Hne. unfold display_ik.
  apply keeps_bind; [apply show_ik_cleared | intros _].
  apply keeps_previous.
  - intros g p H _ _. unfold cleared in *. by destruct src.
  - apply keeps_bind; [by apply refetch_ik_cleared | intros _; apply show_ik_cleared].
  - apply keeps_bind; [apply keeps_get_attr | intros pg].
    apply keeps_bind; [unfold st_ui; cleared_leaf | intros _].
    apply keeps_bind; [|intros _; unfold st_ui; cleared_leaf].
    apply keeps_when. intros _.
    apply (keeps_read_modify cleared ik_page "ik_page" (fun pg => set_ik_page (pg + 1))).
    + intros g p H _. unfold cleared in *. by destruct src.
    + apply keeps_bind; [by apply refetch_ik_cleared | intros _; apply show_ik_cleared].
Qed.

Lemma display_justia_cleared inp : src <> Justia -> keeps cleared (display_justia w inp).
Proof.
  intros Hne. unfold display_justia.
  apply keeps_bind; [unfold st_ui; cleared_leaf | intros _].
  apply keeps_bind; [apply show_justia_cleared | intros _].
  apply keeps_previous.
  - intros g p H _ _. unfold cleared in *. by destruct src.
  - apply keeps_bind;
      [by apply refetch_justia_cleared | intros _; apply show_justia_cleared].
  - apply keeps_bind; [apply keeps_get_attr | intros pg].
    apply keeps_bind; [unfold st_ui; cleared_leaf | intros _].
    apply keeps_when. intros _.
    apply (keeps_read_modify cleared justia_page "justia_page"
             (fun pg => set_justia_page (pg + 1))).
    + intros g p H _. unfold cleared in *. by destruct src.
    + apply keeps_bind;
        [by apply refetch_justia_cleared | intros _; apply show_justia_cleared].
Qed.

Lemma display_generic_cleared field name source_name :
  keeps cleared (display_generic field name source_name).
Proof. unfold display_generic, st_ui. cleared_auto. Qed.

Lemma display_cleared inp :
  enabled inp src = false ->
  keeps cleared
    (when (search_ik inp) (display_ik w inp) ≫= fun _ =>
     when (search_al inp) (display_generic austlii_results "austlii_results" "AustLII")
       ≫= fun _ =>
     when (search_cl inp) (display_generic canlii_results "canlii_results" "CanLII")
       ≫= fun _ =>
     when (search_justia inp) (display_justia w inp)).
Proof.
  intros Hoff.
  apply keeps_bind; [|intros _].
  { apply keeps_when. intros Hon. apply display_ik_cleared.
    by apply (enabled_other src inp IndianKanoon). }
  apply keeps_bind; [|intros _].
  { apply keeps_when. intros Hon. apply display_generic_cleared. }
  apply keeps_bind; [|intros _].
  { apply keeps_when. intros Hon. apply display_generic_cleared. }
  apply keeps_when. intros Hon. apply display_justia_cleared.
  by apply (enabled_other src inp Justia).
Qed.

Lemma on_search_blocks inp :
  on_search w inp
  = (modify_session (set_keyword (keyword_input inp)) ≫= fun _ =>
     search_block w inp IndianKanoon ≫= fun _ =>
     search_block w inp AustLII ≫= fun _ =>
     search_block w inp CanLII ≫= fun _ =>
     search_block w inp Justia ≫= fun _ =>
     modify_session (set_results_fetched true) ≫= fun _ =>
     modify_session (set_ik_counts ∅) ≫= fun _ =>
     modify_session (set_justia_counts ∅)).
Proof. reflexivity. Qed.

(** The block of the disabled source clears its list. *)
Lemma search_block_clears inp :
  enabled inp src = false ->
  hoare (fun _ => True) (search_block w inp src) (fun _ => cleared).
Proof.
  intros Hoff l g _. unfold cleared.
  destruct src; cbn in Hoff |- *; rewrite Hoff; reflexivity.
Qed.

(** The block of another source leaves the list alone. *)
Lemma search_block_cleared inp (from : source) :
  src <> from -> keeps cleared (search_block w inp from).
Proof.
  intros Hne.
  destruct from; cbn [search_block].
  - destruct (search_ik inp); [|cleared_leaf].
    apply keeps_bind; [cleared_leaf | intros _]. by apply refetch_ik_cleared.
  - destruct (search_al inp); [|cleared_leaf].
    apply keeps_bind; [apply keeps_get_attr | intros kw].
    apply keeps_bind; [apply (cleared_fetch AustLII kw 1) | intros r; cleared_leaf].
  - destruct (search_cl inp); [|cleared_leaf].
    apply keeps_bind; [apply keeps_get_attr | intros kw].
    apply keeps_bind; [apply (cleared_fetch CanLII kw 1) | intros r; cleared_leaf].
  - destruct (search_justia inp); [|cleared_leaf].
    apply keeps_bind; [cleared_leaf | intros _]. by apply refetch_justia_cleared.
Qed.

(** From the point where the list is cleared, a computation that keeps it
    cleared ends with the list cleared. *)
Lemma hoare_clears_then_keeps {A B} (m : M unit A) (k : A -> M unit B) :
  hoare (fun _ => True) m (fun _ => cleared) ->
  (forall a, keeps cleared (k a)) ->
  hoare (fun _ => True) (m ≫= k) (fun _ => cleared).
Proof.
  intros Hm Hk. apply (hoare_bind _ (fun _ => cleared)); [done | done | done].
Qed.

Lemma hoare_later {A B} (m : M unit A) (k : A -> M unit B) :
  (forall a, hoare (fun _ => True) (k a)
               (fun r g => (exists b, r = inr b) -> cleared g)) ->
  hoare (fun _ => True) (m ≫= k) (fun r g => (exists b, r = inr b) -> cleared g).
Proof.
  intros Hk. apply hoare_skip; [done|]. by intros e g [b Hb].
Qed.

Lemma hoare_now {A B} (m : M unit A) (k : A -> M unit B) :
  hoare (fun _ => True) m (fun _ => cleared) ->
  (forall a, keeps cleared (k a)) ->
  hoare (fun _ => True) (m ≫= k) (fun r g => (exists b, r = inr b) -> cleared g).
Proof.
  intros Hm Hk. eapply hoare_weaken; [by apply hoare_clears_then_keeps | done |].
  by intros r g H _.
Qed.

Lemma search_tail_cleared :
  keeps cleared
    (modify_session (L:=unit) (set_results_fetched true) ≫= fun _ =>
     modify_session (set_ik_counts ∅) ≫= fun _ =>
     modify_session (set_justia_counts ∅)).
Proof. cleared_auto. Qed.

End Cleared.

Lemma on_search_clears w src inp :
  enabled inp src = false ->
  hoare (fun _ => True) (on_search w inp)
    (fun r g => (exists b, r = inr b) -> cleared src g).
Proof.
  intros Hoff. rewrite on_search_blocks.
  pose proof (search_block_clears w src inp Hoff) as Hclear.
  pose proof (search_tail_cleared src) as Htail.
  apply hoare_later. intros _.
  destruct src.
  - apply hoare_now; [exact Hclear | intros _].
    repeat (apply keeps_bind; [by apply search_block_cleared | intros _]). exact Htail.
  - apply hoare_later. intros _.
    apply hoare_now; [exact Hclear | intros _].
    repeat (apply keeps_bind; [by apply search_block_cleared | intros _]). exact Htail.
  - do 2 (apply hoare_later; intros _).
    apply hoare_now; [exact Hclear | intros _].
    repeat (apply keeps_bind; [by apply search_block_cleared | intros _]). exact Htail.
  - do 3 (apply hoare_later; intros _).
    apply hoare_now; [exact Hclear | intros _]. exact Htail.
Qed.

Lemma main_clears w src inp :
  search_button inp = true ->
  enabled inp src = false ->
  hoare (fun _ => True) (main w inp)
    (fun r g => (exists b, r = inr b) -> cleared src g).
Proof.
  intros Hsearch Hoff. unfold main. rewrite Hsearch. cbn [when].
  do 3 (apply hoare_later; intros _).
  apply (hoare_bind _ (fun r g => (exists b, r = inr b) -> cleared src g)).
  - by apply on_search_clears.
  - intros [] l g Hg. assert (Hc : cleared src g) by (apply Hg; by exists tt).
    intros _. clear Hg. revert l g Hc.
    change (keeps (cleared src)
      (get_attr results_fetched "results_fetched" ≫= fun fetched =>
       when fetched
         (when (search_ik inp) (display_ik w inp) ≫= fun _ =>
          when (search_al inp)
            (display_generic austlii_results "austlii_results" "AustLII") ≫= fun _ =>
          when (search_cl inp)
            (display_generic canlii_results "canlii_results" "CanLII") ≫= fun _ =>
          when (search_justia inp) (display_justia w inp)))).
    apply keeps_bind; [apply keeps_get_attr | intros fetched].
    apply keeps_when. intros _. by apply display_cleared.
  - by intros e g _ [b Hb].
Qed.


(** C4, as the code has it. When a search is run with the checkbox of a
    source cleared, nothing that concerns the source happens or is shown:
    no request to its site, no result block, no "No results found."
    message, no page indicator and no error message; and when the run ends
    without an exception of another source, the list stored for the
    source is the empty list. *)
Theorem disabled_source_is_silent (w : world) (inp : ui_input)
    (s : session_state) (src : source) :
  search_button inp = true ->
  enabled inp src = false ->
  Forall (fun e => concerns src e = false) (run_main w inp s).2 /\
  ((run_main w inp s).1.1 = inr tt -> stored src (run_main w inp s).1.2 = Some []).
Proof.
  intros Hsearch Hoff. unfold run_main.
  pose proof (main_quiet w src inp Hoff tt (mk_mstate s []) (Forall_nil_2 _)) as Hquiet.
  pose proof (main_clears w src inp Hsearch Hoff tt (mk_mstate s []) I) as Hclear.
  destruct (main w inp tt (mk_mstate s [])) as [[r l] g]. cbn in *.
  split; [exact Hquiet|]. intros ->. apply Hclear. by exists tt.
Qed.

Lemma disabled_source_is_silent_all_off :
  let w := Example.offline in
  let inp := Example.search_none in
  search_button inp = true /\
  enabled inp AustLII = false /\
  Forall (fun e => concerns AustLII e = false) (run_main w inp empty_session).2 /\
  ((run_main w inp empty_session).1.1 = inr tt ->
   stored AustLII (run_main w inp empty_session).1.2 = Some []).
Proof.
  intros w inp.
  assert (Hsearch : search_button inp = true) by reflexivity.
  assert (Hoff : enabled inp AustLII = false) by reflexivity.
  destruct (disabled_source_is_silent w inp empty_session AustLII Hsearch Hoff)
    as [Hquiet Hclear].
  split_and!; [exact Hsearch | exact Hoff | exact Hquiet | exact Hclear].
Defined.

(** The message of C4 that is not there: a search with every checkbox
    cleared stores four empty lists and shows the title and the
    introduction only; no "No results found" is on the page. *)
Lemma disabled_sources_show_no_message :
  run_main Example.offline Example.search_none empty_session
    = (inr tt,
       mk_session (Some Example.kw) (Some 1) (Some 1) (Some true)
         (Some []) (Some []) (Some []) (Some []) (Some ∅) (Some ∅),
       [EvUI (UTitle "Legal Search Dashboard");
        EvUI (UWrite "This dashboard searches multiple legal databases for your query.")])
  /\ existsb says_no_results
       (run_main Example.offline Example.search_none empty_session).2 = false.
Proof. split; vm_compute; reflexivity. Qed.

(** * Further properties of the script *)

(** ** Links and addresses *)

(** X6. Making a link absolute is idempotent for the three routines that
    do it: a second pass changes nothing, because the first one leaves a
    link that begins with "http". *)
Theorem link_normalisation_idempotent (href : string) :
  ik_link (ik_link href) = ik_link href /\
  al_link (al_link href) = al_link href /\
  canlii_link (canlii_link href) = canlii_link href.
Proof.
  split_and!.
  - unfold ik_link at 1. by rewrite ik_link_absolute.
  - unfold al_link at 1. by rewrite al_link_absolute.
  - unfold canlii_link at 1. by rewrite canlii_link_absolute.
Qed.

Lemma string_app_not_longer (a b : string) : a = (a ++ b)%string -> b = "".
Proof.
  intros H. apply (String.app_inj a). by rewrite string_app_empty_r.
Qed.

(** X8. Distinct pages are asked at distinct addresses: for a given
    keyword the Indian Kanoon address (no [pagenum] on page 1, [pagenum =
    page - 1] otherwise) and the Justia address ([start = (page - 1) * 10])
    determine the page. *)
Theorem page_addresses_distinct (keyword : string) (page page' : Z) :
  (ik_search_url keyword page = ik_search_url keyword page' -> page = page') /\
  (justia_search_url keyword page = justia_search_url keyword page' -> page = page').
Proof.
  split.
  - unfold ik_search_url. cbv zeta.
    destruct (Z.eqb_spec page 1) as [->|H1], (Z.eqb_spec page' 1) as [->|H2]; try done.
    + intros H. apply (String.app_inj _) in H.
      apply string_app_not_longer in H. discriminate H.
    + intros H. apply (String.app_inj _) in H. symmetry in H.
      apply string_app_not_longer in H. discriminate H.
    + intros H. do 3 apply (String.app_inj _) in H.
      apply (inj pretty) in H. lia.
  - unfold justia_search_url. intros H. do 3 apply (String.app_inj _) in H.
    apply (inj pretty) in H. lia.
Qed.

Lemma page_addresses_distinct_2_3 :
  ik_search_url Example.kw 2 <> ik_search_url Example.kw 3 /\
  justia_search_url Example.kw 2 <> justia_search_url Example.kw 3.
Proof.
  destruct (page_addresses_distinct Example.kw 2 3) as [Hik Hju].
  split; intros H; [apply Hik in H | apply Hju in H]; lia.
Defined.

(** ** Numbering across pages *)

Lemma cumulative_before_own_count (counts : gmap Z Z) (page n : Z) :
  cumulative_before (<[page := n]> counts) page = cumulative_before counts page.
Proof.
  unfold cumulative_before, range. f_equal.
  apply map_ext_in. intros i Hi. apply list_elem_of_In, elem_of_seqZ in Hi.
  unfold count_at. rewrite lookup_insert_ne by lia. done.
Qed.

Lemma counts_left_insert_other (counts : option (gmap Z Z)) (page n : Z) (pages : list Z) :
  page ∉ pages ->
  counts_left (Some (<[page := n]> (default ∅ counts))) pages = counts_left counts pages.
Proof.
  induction pages as [|q pages IH]; intros Hnot; [done|].
  apply not_elem_of_cons in Hnot as [Hne Hnot].
  cbn [counts_left foldr]. fold (counts_left counts pages).
  fold (counts_left (Some (<[page := n]> (default ∅ counts))) pages).
  rewrite IH by done. f_equal. unfold count_left.
  rewrite lookup_insert_ne by done.
  destruct counts as [m|]; cbn [from_option id]; [done | by rewrite lookup_empty].
Qed.

(** The counts before page [p + 1], once page [p] has been given the
    count [n]. *)
Lemma counts_left_next (counts : option (gmap Z Z)) (p n : Z) :
  1 <= p ->
  counts_left (Some (<[p := n]> (default ∅ counts))) (seqZ 1 (p + 1 - 1))
  = counts_left counts (seqZ 1 (p - 1)) + n.
Proof.
  intros Hp. replace (p + 1 - 1) with ((p - 1) + 1) by lia.
  rewrite seqZ_app by lia. replace (1 + (p - 1)) with p by lia.
  rewrite (seqZ_cons p 1) by lia. rewrite (seqZ_nil _ (Z.pred 1)) by lia.
  rewrite counts_left_app, counts_left_insert_other
    by (intros Hin%elem_of_seqZ; lia).
  cbn [counts_left foldr]. unfold count_left. rewrite lookup_insert_eq. lia.
Qed.

(** X10. Numbering runs on from any page to the next: when a non-empty
    page [p >= 1] is formatted, its entries are numbered from [a], one more
    than the counts that the session holds for the pages before [p]; the
    entries of page [p + 1], formatted next, are numbered from
    [a + len(page p)]. For Indian Kanoon and for Justia, from any
    session. *)
Theorem numbering_runs_on (s : session_state) (p : Z) (here next : list result) :
  1 <= p -> here <> [] -> next <> [] ->
  let a_ik := counts_left (ik_counts s) (seqZ 1 (p - 1)) + 1 in
  let a_justia := counts_left (justia_counts s) (seqZ 1 (p - 1)) + 1 in
  let s_ik := (format_indian_kanoon_results here p s).1 in
  let s_justia := (format_justia_results here p s).1 in
  let numbered (with_details : bool) (start : Z) (rs : list result) :=
    String.concat "" (zip_with (shown_entry with_details) (seqZ start (len rs)) rs) in
  (format_indian_kanoon_results here p s).2
    = ("### Indian Kanoon Results (Page " ++ str_of_int p ++ ")" ++ nl ++ nl
       ++ numbered true a_ik here)%string /\
  (format_indian_kanoon_results next (p + 1) s_ik).2
    = ("### Indian Kanoon Results (Page " ++ str_of_int (p + 1) ++ ")" ++ nl ++ nl
       ++ numbered true (a_ik + len here) next)%string /\
  (format_justia_results here p s).2
    = ("### Justia Results (Page " ++ str_of_int p ++ ")" ++ nl ++ nl
       ++ numbered false a_justia here)%string /\
  (format_justia_results next (p + 1) s_justia).2
    = ("### Justia Results (Page " ++ str_of_int (p + 1) ++ ")" ++ nl ++ nl
       ++ numbered false (a_justia + len here) next)%string.
Proof.
  intros Hp Hhere Hnext a_ik a_justia s_ik s_justia numbered.
  destruct here as [|r rs]; [done|]. destruct next as [|r' rs']; [done|].
  split_and!.
  - by rewrite format_indian_kanoon_results_shown.
  - rewrite format_indian_kanoon_results_shown. subst s_ik.
    rewrite format_indian_kanoon_results_session. cbn [ik_counts set_ik_counts].
    rewrite counts_left_next by done. subst a_ik.
    replace (counts_left (ik_counts s) (seqZ 1 (p - 1)) + len (r :: rs) + 1)
      with (counts_left (ik_counts s) (seqZ 1 (p - 1)) + 1 + len (r :: rs)) by lia.
    reflexivity.
  - by rewrite format_justia_results_shown.
  - rewrite format_justia_results_shown. subst s_justia.
    rewrite format_justia_results_session. cbn [justia_counts set_justia_counts].
    rewrite counts_left_next by done. subst a_justia.
    replace (counts_left (justia_counts s) (seqZ 1 (p - 1)) + len (r :: rs) + 1)
      with (counts_left (justia_counts s) (seqZ 1 (p - 1)) + 1 + len (r :: rs)) by lia.
    reflexivity.
Qed.

(** Pages 1 and 2 hold 9 and 8 results: the two results of page 3 are
    numbered 18 and 19, and the result of page 4 is numbered 20. *)
Lemma numbering_runs_on_page_3 :
  let item := mk_result "A v B" "https://indiankanoon.org/doc/1/" None in
  let s := set_ik_counts {[1 := 9; 2 := 8]} empty_session in
  let entry (n : string) :=
    ("**" ++ n ++ ". A v B**" ++ nl ++ "- Link: https://indiankanoon.org/doc/1/" ++ nl
     ++ nl)%string in
  1 <= 3 /\ [item; item] <> [] /\ [item] <> [] /\
  (format_indian_kanoon_results [item; item] 3 s).2
    = ("### Indian Kanoon Results (Page 3)" ++ nl ++ nl
       ++ entry "18" ++ entry "19")%string /\
  (format_indian_kanoon_results [item] (3 + 1)
     (format_indian_kanoon_results [item; item] 3 s).1).2
    = ("### Indian Kanoon Results (Page 4)" ++ nl ++ nl ++ entry "20")%string.
Proof.
  intros item s entry.
  assert (H1 : 1 <= 3) by lia.
  assert (H2 : [item; item] <> []) by done.
  assert (H3 : [item] <> []) by done.
  destruct (numbering_runs_on s 3 [item; item] [item] H1 H2 H3)
    as (Hhere & Hnext & _ & _).
  split_and!; [exact H1 | exact H2 | exact H3 | |].
  - rewrite Hhere. vm_compute. reflexivity.
  - rewrite Hnext. vm_compute. reflexivity.
Defined.

(** X9. Formatting a page again is stable: the script formats the current
    page at every rerun, and a second formatting of the same results for
    the same page returns the same text and leaves the session as the
    first one left it. *)
Theorem formatting_again_is_stable (s : session_state) (page : Z) (rs : list result) :
  format_indian_kanoon_results rs page (format_indian_kanoon_results rs page s).1
    = format_indian_kanoon_results rs page s /\
  format_justia_results rs page (format_justia_results rs page s).1
    = format_justia_results rs page s.
Proof.
  destruct rs as [|r rs]; [done|]. split.
  - unfold format_indian_kanoon_results. cbn [fst ik_counts set_ik_counts].
    rewrite insert_insert_eq, !cumulative_before_own_count. reflexivity.
  - unfold format_justia_results. cbn [fst justia_counts set_justia_counts].
    rewrite insert_insert_eq, !cumulative_before_own_count. reflexivity.
Qed.

(** ** What the fetch routines return *)

Lemma ik_records_entries (divs : list ik_div) (acc : list result) :
  fold_left ik_record divs acc = (acc ++ omap ik_entry divs)%list.
Proof.
  revert acc. induction divs as [|d divs IH]; intros acc; cbn [fold_left omap list_omap].
  - by rewrite app_nil_r.
  - rewrite IH. unfold ik_record, ik_entry.
    destruct (div_anchor d) as [[text href]|]; [|done].
    rewrite <- app_assoc. cbn. by destruct (div_next_div d).
Qed.

(** X7. On a response with status 200, [fetch_indian_kanoon_results]
    returns one record per result block that has a linked anchor, in the
    order of the page; blocks without one are skipped, so there are never
    more records than blocks, and every record has a [details] field. *)
Theorem ik_one_record_per_linked_block (w : world) (keyword : string) (page : Z)
    (l : unit) (g : mstate) (resp : response) :
  http_get w (log g) (ik_search_url keyword page) = inr resp ->
  status_code resp = 200 ->
  let divs := divs_result_title (content resp) in
  (fetch_indian_kanoon_results w keyword page l g).1.1 = inr (omap ik_entry divs) /\
  (length (omap ik_entry divs) <= length divs)%nat /\
  Forall (fun r => is_Some (details r)) (omap ik_entry divs).
Proof.
  intros Hget Hcode divs. split_and!.
  - unfold fetch_indian_kanoon_results, requests_get. unfold_M. cbn.
    rewrite Hget. cbn. rewrite Hcode. cbn. by rewrite ik_records_entries.
  - clear. induction divs as [|d divs IH]; cbn; [done|].
    destruct (ik_entry d); cbn; lia.
  - clear. induction divs as [|d divs IH]; cbn; [done|].
    destruct (ik_entry d) as [r|] eqn:Hr; [|done]. constructor; [|done].
    unfold ik_entry in Hr. destruct (div_anchor d) as [[text href]|]; [|done].
    injection Hr as <-. by eexists.
Qed.

Lemma ik_one_record_per_linked_block_page_1 :
  let g := mk_mstate empty_session [] in
  let resp := mk_response 200 "OK" (Example.doc [Example.hit "1"; Example.hit "2"]) in
  http_get Example.site_up (log g) (ik_search_url Example.kw 1) = inr resp /\
  status_code resp = 200 /\
  (fetch_indian_kanoon_results Example.site_up Example.kw 1 tt g).1.1
    = inr (omap ik_entry [Example.hit "1"; Example.hit "2"]).
Proof.
  intros g resp.
  assert (Hget : http_get Example.site_up (log g) (ik_search_url Example.kw 1)
                 = inr resp) by reflexivity.
  assert (Hcode : status_code resp = 200) by reflexivity.
  split_and!; [exact Hget | exact Hcode |].
  exact (proj1 (ik_one_record_per_linked_block Example.site_up Example.kw 1 tt g resp
                  Hget Hcode)).
Defined.

(** X3. [fetch_austlii_search_results] never returns an empty list: when
    the page has no document link it returns the "No results found on
    AustLII." placeholder, and on a connection error the "unavailable"
    one. *)
Theorem austlii_never_empty (w : world) (keyword : string) (l : unit) (g : mstate)
    (rs : list result) :
  (fetch_austlii_search_results w keyword l g).1.1 = inr rs -> rs <> [].
Proof.
  unfold fetch_austlii_search_results. cbv zeta. rewrite bind_run.
  destruct (austlii_try_outcome w keyword l g)
    as [(resp & _ & _ & ->) | [(msg & ->) | (e & _ & _ & ->)]]; [| |done].
  - rewrite bind_run.
    destruct (for_each _ _ _ _ _) as [[[e|results] l2] g2]; [done|].
    intros [= <-]. by destruct results.
  - by intros [= <-].
Qed.

Lemma austlii_never_empty_offline :
  (fetch_austlii_search_results Example.offline Example.kw tt
     (mk_mstate empty_session [])).1.1 = inr [austlii_unavailable] /\
  [austlii_unavailable] <> [].
Proof.
  assert (H : (fetch_austlii_search_results Example.offline Example.kw tt
                 (mk_mstate empty_session [])).1.1 = inr [austlii_unavailable])
    by (vm_compute; reflexivity).
  split; [exact H|].
  exact (austlii_never_empty Example.offline Example.kw tt
           (mk_mstate empty_session []) [austlii_unavailable] H).
Defined.

(** X4. An HTTP error status is an error for AustLII: when the response
    has a status from 400 to 599, [raise_for_status] raises, the handler
    shows "Error fetching AustLII results: ..." and the routine returns
    the "unavailable" placeholder alone (Indian Kanoon, by contrast,
    returns an empty list and shows nothing). *)
Theorem austlii_http_error_is_reported (w : world) (keyword : string)
    (l : unit) (g : mstate) (resp : response) :
  http_get w (log g) (austlii_search_url keyword) = inr resp ->
  400 <= status_code resp < 600 ->
  exists msg,
    fetch_austlii_search_results w keyword l g
    = (inr [austlii_unavailable], l,
       mk_mstate (session g)
         (log g ++ [EvHttpGet (austlii_search_url keyword) (Some 20);
                    EvUI (UError ("Error fetching AustLII results: " ++ msg))])).
Proof.
  intros Hget Hcode.
  unfold fetch_austlii_search_results. cbv zeta. rewrite bind_run.
  destruct (austlii_try_outcome w keyword l g)
    as [(resp' & Hget' & Hok & _) | [(msg & ->) | (e & Hget' & _)]].
  - rewrite Hget in Hget'. injection Hget' as <-. lia.
  - by exists msg.
  - rewrite Hget in Hget'. discriminate Hget'.
Qed.

Lemma austlii_http_error_is_reported_500 :
  let g := mk_mstate empty_session [] in
  let resp := mk_response 500 "Internal Server Error" empty_document in
  http_get Example.site_failing (log g) (austlii_search_url Example.kw) = inr resp /\
  400 <= status_code resp < 600 /\
  exists msg,
    fetch_austlii_search_results Example.site_failing Example.kw tt g
    = (inr [austlii_unavailable], tt,
       mk_mstate (session g)
         (log g ++ [EvHttpGet (austlii_search_url Example.kw) (Some 20);
                    EvUI (UError ("Error fetching AustLII results: " ++ msg))])).
Proof.
  intros g resp.
  assert (Hget : http_get Example.site_failing (log g) (austlii_search_url Example.kw)
                 = inr resp) by reflexivity.
  assert (Hcode : 400 <= status_code resp < 600) by (cbn; lia).
  split; [exact Hget | split; [exact Hcode|]].
  exact (austlii_http_error_is_reported Example.site_failing Example.kw tt g resp
           Hget Hcode).
Defined.

(** X5. Each call of the two HTTP routines sends exactly one GET, whatever
    the answer: there is no retry. Indian Kanoon does nothing else to the
    outside; AustLII shows at most one error message after it. *)
Theorem one_get_per_call (w : world) (keyword : string) (page : Z)
    (l : unit) (g : mstate) :
  (fetch_indian_kanoon_results w keyword page l g).2
    = mk_mstate (session g) (log g ++ [EvHttpGet (ik_search_url keyword page) None]) /\
  exists rest,
    (fetch_austlii_search_results w keyword l g).2
      = mk_mstate (session g)
          (log g ++ EvHttpGet (austlii_search_url keyword) (Some 20) :: rest) /\
    count is_http_get rest = 0%nat /\
    (count shows_error rest <= 1)%nat /\
    length rest = count shows_error rest.
Proof.
  split.
  - unfold fetch_indian_kanoon_results, requests_get. unfold_M. cbn.
    destruct (http_get w (log g) (ik_search_url keyword page)) as [e|resp]; cbn; [done|].
    by destruct (negb (status_code resp =? 200)).
  - unfold fetch_austlii_search_results. cbv zeta. rewrite bind_run.
    destruct (austlii_try_outcome w keyword l g)
      as [(resp & _ & _ & ->) | [(msg & ->) | (e & _ & _ & ->)]].
    + exists []. split; [|unfold count; cbn; split_and!; lia]. rewrite bind_run.
      pose proof (al_records_state (anchors_with_href (content resp)) [] l
                    (mk_mstate (session g)
                       (log g ++ [EvHttpGet (austlii_search_url keyword) (Some 20)])))
        as Hst.
      by destruct (for_each _ _ _ _ _) as [[[e|results] l2] g2]; cbn in *; subst.
    + eexists. split; [reflexivity|].
      unfold count. split_and!; [reflexivity | vm_compute; lia | reflexivity].
    + exists []. split; [done|]. unfold count; cbn; split_and!; lia.
Qed.

Lemma justia_records_entries (anchors : list sel_anchor) (acc : list result) :
  fold_left justia_record anchors acc = (acc ++ map justia_entry anchors)%list.
Proof.
  revert acc. induction anchors as [|a anchors IH]; intros acc; cbn [fold_left map].
  - by rewrite app_nil_r.
  - rewrite IH, justia_record_keeps_href. by rewrite <- app_assoc.
Qed.

(** The Justia routine always returns, and leaves the session alone. *)
Lemma justia_returns (w : world) (keyword : string) (page : Z)
    (l : unit) (g : mstate) :
  exists rs evs,
    fetch_justia_search_results w keyword page l g
      = (inr rs, l, mk_mstate (session g) (log g ++ evs)).
Proof.
  unfold fetch_justia_search_results, call, fetch_justia_body, finally, try_except,
    webdriver_Edge, driver_do, driver_page_source, quit_if_created, driver_quit, st_ui.
  unfold_M. cbn.
  destruct (edge_new w (log g)) eqn:Hnew; cbn;
    [do 2 eexists; rewrite <- ?app_assoc; cbn; reflexivity|].
  repeat (case_driver_step; [do 2 eexists; rewrite <- ?app_assoc; cbn; reflexivity|]).
  do 2 eexists; rewrite <- ?app_assoc; cbn; reflexivity.
Qed.

Ltac session_outcome :=
  rewrite <- ?app_assoc; cbn; rewrite ?justia_records_entries; reflexivity.

(** X1. [fetch_justia_search_results] never raises: whatever the driver
    does, it returns a list. The session goes through the creation of the
    driver, the load of the search address, the wait for a result block
    and the reading of the page, up to the first of them that fails. When
    one fails, the message of that failure is shown once, after the failed
    step, and the empty list is returned; when none fails, nothing is
    shown and the routine returns one record per result anchor of the page
    as it was read after the wait, in page order, with the href as it is
    (empty when there is none). A driver that was created is quit last. *)
Theorem justia_never_raises (w : world) (keyword : string) (page : Z)
    (l : unit) (g : mstate) :
  let opened := (log g ++ [EvEdge ["--headless"; "--disable-gpu"]])%list in
  let steps :=
    [DGet (justia_search_url keyword page); DWaitPresence ".gsc-webResult" 20] in
  let error (e : exn) :=
    EvUI (UError ("Error fetching Justia results: " ++ exn_msg e)) in
  let returns (rs : list result) (evs : list event)
      : (exn + list result) * unit * mstate :=
    (inr rs, l, mk_mstate (session g) evs) in
  fetch_justia_search_results w keyword page l g
  = match edge_new w (log g) with
    | Some e => returns [] (opened ++ [error e])
    | None =>
      match driven w opened steps with
      | (h, Some e) => returns [] (h ++ [error e; EvQuit])
      | (h, None) =>
        match driver_step w h DPageSource with
        | Some e => returns [] (h ++ [EvDriver DPageSource; error e; EvQuit])
        | None =>
          returns (map justia_entry (anchors_gs_title (page_source w h)))
            (h ++ [EvDriver DPageSource; EvQuit])
        end
      end
    end%list.
Proof.
  intros opened steps error returns. subst opened steps error returns.
  unfold fetch_justia_search_results, call, fetch_justia_body, finally, try_except,
    webdriver_Edge, driver_do, driver_page_source, quit_if_created, driver_quit, st_ui,
    edge_options, canlii_base_url.
  unfold_M. cbn.
  destruct (edge_new w (log g)) eqn:Hnew; cbn; [session_outcome|].
  repeat (case_driver_step; [session_outcome|]).
  session_outcome.
Qed.

Lemma canlii_records_entries {L} (xs : list sel_anchor) acc (l : L) (g : mstate) :
  for_each xs canlii_record acc l g
  = (match canlii_entries xs with
     | Some rs => inr (acc ++ rs)%list
     | None => inl (mk_exn KeyError "'href'")
     end, l, g).
Proof.
  revert acc. induction xs as [|x xs IH]; intros acc; cbn [for_each canlii_entries].
  - by rewrite app_nil_r.
  - rewrite bind_run. unfold canlii_record at 1.
    destruct (sel_href x) as [href|]; cbn; [|done].
    rewrite IH. destruct (canlii_entries xs); [|done].
    by rewrite <- app_assoc.
Qed.

Ltac canlii_outcome :=
  rewrite <- ?app_assoc; cbn; rewrite ?canlii_records_entries; cbn; reflexivity.

(** X2. [fetch_canlii_search_results] raises in one case only: the
    session went through and a result anchor of the page that was read has
    no href, so that [a["href"]], after the [try] block, raises a
    [KeyError]. The session goes through the creation of the driver, the
    seven steps that load the home page, enter the keyword and start the
    search, and the reading of the page, up to the first of them that
    fails. When one fails, the message of that failure is shown once and
    the empty list is returned; when none fails, the routine returns one
    record per result anchor of the page read, with an absolute link. A
    driver that was created is quit last, also before the [KeyError]. *)
Theorem canlii_raises_only_key_error (w : world) (keyword : string)
    (l : unit) (g : mstate) :
  let opened := (log g ++ [EvEdge ["--headless"; "--disable-gpu"]])%list in
  let steps :=
    [DGet "https://www.canlii.org/en/";
     DExecuteScript
       ("if(document.getElementById('cookieConsentBlocker')) { "
        ++ "document.getElementById('cookieConsentBlocker').style.display = 'none'; }")
       [];
     DWaitPresence "#textInput" 20;
     DExecuteScript "arguments[0].value = arguments[1];" ["#textInput"; keyword];
     DWaitClickable "button[aria-label='Start a search']" 20;
     DClick "button[aria-label='Start a search']";
     DWaitPresence "a[data-result-uuid]" 40] in
  let error (e : exn) :=
    EvUI (UError ("Error fetching CanLII results: " ++ exn_msg e)) in
  let ends (r : exn + list result) (evs : list event)
      : (exn + list result) * unit * mstate :=
    (r, l, mk_mstate (session g) evs) in
  fetch_canlii_search_results w keyword l g
  = match edge_new w (log g) with
    | Some e => ends (inr []) (opened ++ [error e])
    | None =>
      match driven w opened steps with
      | (h, Some e) => ends (inr []) (h ++ [error e; EvQuit])
      | (h, None) =>
        match driver_step w h DPageSource with
        | Some e => ends (inr []) (h ++ [EvDriver DPageSource; error e; EvQuit])
        | None =>
          ends
            match canlii_entries (anchors_result_uuid (page_source w h)) with
            | Some rs => inr rs
            | None => inl (mk_exn KeyError "'href'")
            end
            (h ++ [EvDriver DPageSource; EvQuit])
        end
      end
    end%list.
Proof.
  intros opened steps error ends. subst opened steps error ends.
  unfold fetch_canlii_search_results, call, fetch_canlii_body, finally, try_except,
    webdriver_Edge, driver_do, driver_page_source, quit_if_created, driver_quit, st_ui,
    edge_options, canlii_base_url.
  unfold_M. cbn.
  destruct (edge_new w (log g)) eqn:Hnew; cbn; [canlii_outcome|].
  repeat (case_driver_step; [canlii_outcome|]).
  canlii_outcome.
Qed.

(** ** Reruns that fetch nothing *)

(** The "Previous" button on the first page: the guard [page > 1] fails
    and the block is skipped. *)
Lemma keeps_previous_blocked (J : mstate -> Prop) (field : session_state -> option Z)
    name (set : Z -> session_state -> session_state) (clicked : bool)
    (after rest : M unit unit) :
  (forall g p, J g -> clicked = true -> field (session g) = Some p -> p <= 1) ->
  keeps J rest ->
  keeps J
    ((if clicked then get_attr field name ≫= fun pg => ret (1 <? pg) else ret false)
       ≫= fun go_back =>
     when go_back
       (get_attr field name ≫= fun pg =>
        modify_session (set (pg - 1)) ≫= fun _ => after)
       ≫= fun _ => rest).
Proof.
  intros Hfirst Hrest l g HJ. rewrite bind_run.
  destruct clicked.
  - unfold_M. cbn.
    destruct (field (session g)) as [p|] eqn:Hp; cbn; [|done].
    specialize (Hfirst g p HJ eq_refl Hp).
    destruct (Z.ltb_spec 1 p) as [Hlt|_]; [lia|]. cbn. by apply Hrest.
  - unfold_M. cbn. by apply Hrest.
Qed.

Section Idle.

Variable w : world.
Variable inp : ui_input.
Variable s0 : session_state.

#[local] Abbreviation J := (undisturbed inp s0).

(** The invariant survives what leaves lists and page counters alone and
    adds text to the page. *)
Lemma undisturbed_step (g : mstate) (s' : session_state) (evs : list event) :
  J g ->
  (forall src, stored src s' = stored src (session g)) ->
  ik_page s' = ik_page (session g) ->
  justia_page s' = justia_page (session g) ->
  Forall (fun e => is_fetch_event e = false) evs ->
  J (mk_mstate s' (log g ++ evs)).
Proof.
  intros (Hlog & Hst & Hik & Hju & Hpi & Hpj) Hst' Hik' Hju' Hevs.
  unfold undisturbed. cbn [session log]. rewrite Hik', Hju'.
  split_and!; try done.
  - by apply Forall_app.
  - intros src. by rewrite Hst'.
Qed.

Lemma undisturbed_ui (u : ui_event) : keeps J (st_ui (L:=unit) u).
Proof.
  unfold st_ui. apply keeps_emit. intros g H.
  apply undisturbed_step; try done. by constructor.
Qed.

Lemma undisturbed_show_ik out : keeps J (show_ik out).
Proof.
  unfold show_ik.
  apply keeps_bind; [apply keeps_get_attr | intros rs].
  apply keeps_bind; [apply keeps_get_attr | intros pg].
  apply keeps_format_show. intros g H.
  rewrite format_indian_kanoon_results_session.
  apply undisturbed_step; try done; try (by constructor); by destruct rs.
Qed.

Lemma undisturbed_show_justia out : keeps J (show_justia out).
Proof.
  unfold show_justia.
  apply keeps_bind; [apply keeps_get_attr | intros rs].
  apply keeps_bind; [apply keeps_get_attr | intros pg].
  apply keeps_format_show. intros g H.
  rewrite format_justia_results_session.
  apply undisturbed_step; try done; try (by constructor); by destruct rs.
Qed.

Lemma undisturbed_init : keeps J init_session.
Proof.
  unfold init_session.
  apply (hoare_init_field_then _ J).
  { intros g H. destruct (keyword (session g)); [done|].
    rewrite <- (app_nil_r (log g)). by apply undisturbed_step. }
  apply (hoare_init_field_then _ J).
  { intros g H. destruct (ik_page (session g)) as [p|] eqn:Hp; [done|].
    destruct H as (Hlog & Hst & Hik & Hju & Hpi & Hpj).
    unfold undisturbed. cbn. split_and!; try done.
    - intros p Hp0. apply Hik in Hp0. congruence.
    - intros _ p [= <-]. lia. }
  apply (hoare_init_field_then _ J).
  { intros g H. destruct (justia_page (session g)) as [p|] eqn:Hp; [done|].
    destruct H as (Hlog & Hst & Hik & Hju & Hpi & Hpj).
    unfold undisturbed. cbn. split_and!; try done.
    - intros p Hp0. apply Hju in Hp0. congruence.
    - intros _ p [= <-]. lia. }
  apply hoare_init_field.
  intros g H. destruct (results_fetched (session g)); [done|].
  rewrite <- (app_nil_r (log g)). by apply undisturbed_step.
Qed.

Hypothesis Hnext_ik : next_ik inp = false.
Hypothesis Hnext_justia : next_justia inp = false.

Lemma undisturbed_display_ik : keeps J (display_ik w inp).
Proof.
  unfold display_ik. rewrite Hnext_ik. cbn [when].
  apply keeps_bind; [apply undisturbed_show_ik | intros _].
  apply keeps_previous_blocked.
  - intros g p (_ & _ & _ & _ & Hpi & _) Hclicked Hp. by apply Hpi.
  - apply keeps_bind; [apply keeps_get_attr | intros pg].
    apply keeps_bind; [apply undisturbed_ui | intros _].
    apply keeps_bind; [apply keeps_ret | intros _]. apply undisturbed_ui.
Qed.

Lemma undisturbed_display_justia : keeps J (display_justia w inp).
Proof.
  unfold display_justia. rewrite Hnext_justia. cbn [when].
  apply keeps_bind; [apply undisturbed_ui | intros _].
  apply keeps_bind; [apply undisturbed_show_justia | intros _].
  apply keeps_previous_blocked.
  - intros g p (_ & _ & _ & _ & _ & Hpj) Hclicked Hp. by apply Hpj.
  - apply keeps_bind; [apply keeps_get_attr | intros pg].
    apply keeps_bind; [apply undisturbed_ui | intros _]. apply keeps_ret.
Qed.

Lemma undisturbed_display_generic field name source_name :
  keeps J (display_generic field name source_name).
Proof.
  unfold display_generic.
  apply keeps_bind; [apply keeps_get_attr | intros rs].
  apply keeps_bind; [apply undisturbed_ui | intros _]. apply undisturbed_ui.
Qed.

Hypothesis Hsearch : search_button inp = false.

Lemma undisturbed_main : keeps J (main w inp).
Proof.
  unfold main. rewrite Hsearch. cbn [when].
  apply keeps_bind; [apply undisturbed_ui | intros _].
  apply keeps_bind; [apply undisturbed_ui | intros _].
  apply keeps_bind; [apply undisturbed_init | intros _].
  apply keeps_bind; [apply keeps_ret | intros _].
  apply keeps_bind; [apply keeps_get_attr | intros fetched].
  apply keeps_when. intros _.
  apply keeps_bind; [apply keeps_when; intros _; apply undisturbed_display_ik | intros _].
  apply keeps_bind;
    [apply keeps_when; intros _; apply undisturbed_display_generic | intros _].
  apply keeps_bind;
    [apply keeps_when; intros _; apply undisturbed_display_generic | intros _].
  apply keeps_when. intros _. apply undisturbed_display_justia.
Qed.

End Idle.

(** X11. A rerun fetches only on a click that asks for it: when neither
    "Search" nor a "Next" button is clicked, and no "Previous" button is
    clicked on a page beyond the first, the script sends no request and
    opens no browser, however it ends; the stored result lists are those
    it started with and the page counters that were set keep their value.
    In particular "Previous" on page 1 does nothing. *)
Theorem idle_rerun_fetches_nothing (w : world) (inp : ui_input) (s : session_state) :
  search_button inp = false ->
  next_ik inp = false ->
  next_justia inp = false ->
  (prev_ik inp = true -> forall p, ik_page s = Some p -> p <= 1) ->
  (prev_justia inp = true -> forall p, justia_page s = Some p -> p <= 1) ->
  undisturbed inp s (mk_mstate (run_main w inp s).1.2 (run_main w inp s).2).
Proof.
  intros Hsearch Hni Hnj Hpi Hpj. unfold run_main.
  assert (H0 : undisturbed inp s (mk_mstate s [])).
  { unfold undisturbed. cbn. split_and!; done. }
  pose proof (undisturbed_main w inp s Hni Hnj Hsearch tt (mk_mstate s []) H0) as H.
  by destruct (main w inp tt (mk_mstate s [])) as [[r l] [s' evs]].
Qed.

Lemma idle_rerun_previous_on_page_1 :
  let item := mk_result "A v B" "https://indiankanoon.org/doc/1/" (Some "held") in
  let s := mk_session (Some Example.kw) (Some 1) (Some 1) (Some true)
             (Some [item]) (Some []) (Some []) (Some []) (Some ∅) (Some ∅) in
  let inp := Example.click_prev in
  search_button inp = false /\ next_ik inp = false /\ next_justia inp = false /\
  undisturbed inp s
    (mk_mstate (run_main Example.offline inp s).1.2 (run_main Example.offline inp s).2).
Proof.
  intros item s inp.
  assert (H1 : search_button inp = false) by reflexivity.
  assert (H2 : next_ik inp = false) by reflexivity.
  assert (H3 : next_justia inp = false) by reflexivity.
  assert (H4 : prev_ik inp = true -> forall p, ik_page s = Some p -> p <= 1).
  { intros _ p Hp. cbn in Hp. injection Hp as <-. lia. }
  assert (H5 : prev_justia inp = true -> forall p, justia_page s = Some p -> p <= 1).
  { intros H. discriminate H. }
  split_and!; [exact H1 | exact H2 | exact H3 |].
  exact (idle_rerun_fetches_nothing Example.offline inp s H1 H2 H3 H4 H5).
Defined.

(** ** The stored lists *)

Lemma lists_ready_frame (have : list source) (g : mstate) (s' : session_state)
    (lg : list event) :
  lists_ready have g ->
  (results_fetched s' = Some true -> results_fetched (session g) = Some true) ->
  (forall src, is_Some (stored src (session g)) -> is_Some (stored src s')) ->
  lists_ready have (mk_mstate s' lg).
Proof.
  intros [Hready Hhave] Hflag Hst. split; cbn.
  - intros Hf src. apply Hst, Hready, Hflag, Hf.
  - eapply Forall_impl; [exact Hhave|]. intros src. apply Hst.
Qed.

Section Ready.

Variable w : world.

Ltac ready_leaf :=
  first
    [ apply keeps_emit; intros g H; exact H
    | apply keeps_modify_session; intros g H;
      (eapply lists_ready_frame; [exact H | cbn; done | ]);
      intros src; destruct src; cbn; solve [ done | by eexists ]
    | eapply emits_keeps; [apply fetch_emits | intros g evs H _; exact H] ].

Lemma ready_fetch have src keyword page :
  keeps (lists_ready have) (fetch w src keyword page).
Proof. ready_leaf. Qed.

Lemma ready_show_ik have out : keeps (lists_ready have) (show_ik out).
Proof.
  unfold show_ik.
  apply keeps_bind; [apply keeps_get_attr | intros rs].
  apply keeps_bind; [apply keeps_get_attr | intros pg].
  apply keeps_format_show. intros g H.
  rewrite format_indian_kanoon_results_session.
  eapply lists_ready_frame; [exact H | by destruct rs |].
  intros src. by destruct rs, src.
Qed.

Lemma ready_show_justia have out : keeps (lists_ready have) (show_justia out).
Proof.
  unfold show_justia.
  apply keeps_bind; [apply keeps_get_attr | intros rs].
  apply keeps_bind; [apply keeps_get_attr | intros pg].
  apply keeps_format_show. intros g H.
  rewrite format_justia_results_session.
  eapply lists_ready_frame; [exact H | by destruct rs |].
  intros src. by destruct rs, src.
Qed.

(** Storing a list for a source. *)
Lemma ready_store have (from : source) (f : session_state -> session_state) :
  (forall s, results_fetched (f s) = results_fetched s) ->
  (forall s src, is_Some (stored src s) -> is_Some (stored src (f s))) ->
  (forall s, is_Some (stored from (f s))) ->
  hoare (lists_ready have) (modify_session (L:=unit) f)
    (fun r g => match r with
                | inl _ => lists_ready have g
                | inr _ => lists_ready (from :: have) g
                end).
Proof.
  intros Hflag Hkeep Hnew l g [Hready Hhave].
  change (lists_ready (from :: have) (mk_mstate (f (session g)) (log g))).
  split; [|constructor]; cbn [session].
  - intros Hf src. rewrite Hflag in Hf. by apply Hkeep, Hready.
  - apply Hnew.
  - eapply Forall_impl; [exact Hhave|]. intros src. apply Hkeep.
Qed.

(** A refetch stores a list for its source. *)
Lemma ready_refetch_ik have :
  hoare (lists_ready have) (refetch_ik w)
    (fun r g => match r with
                | inl _ => lists_ready have g
                | inr _ => lists_ready (IndianKanoon :: have) g
                end).
Proof.
  unfold refetch_ik.
  apply (hoare_bind _ (fun _ => lists_ready have)); [apply keeps_get_attr| |done].
  intros kw.
  apply (hoare_bind _ (fun _ => lists_ready have)); [apply keeps_get_attr| |done].
  intros pg.
  apply (hoare_bind _ (fun _ => lists_ready have));
    [apply (ready_fetch have IndianKanoon kw pg)| |done].
  intros r. apply ready_store; [done | by intros s [] | by eexists].
Qed.

Lemma ready_refetch_justia have :
  hoare (lists_ready have) (refetch_justia w)
    (fun r g => match r with
                | inl _ => lists_ready have g
                | inr _ => lists_ready (Justia :: have) g
                end).
Proof.
  unfold refetch_justia.
  apply (hoare_bind _ (fun _ => lists_ready have)); [apply keeps_get_attr| |done].
  intros kw.
  apply (hoare_bind _ (fun _ => lists_ready have)); [apply keeps_get_attr| |done].
  intros pg.
  apply (hoare_bind _ (fun _ => lists_ready have));
    [apply (ready_fetch have Justia kw pg)| |done].
  intros r. apply ready_store; [done | by intros s [] | by eexists].
Qed.

Lemma lists_ready_tail src have g : lists_ready (src :: have) g -> lists_ready have g.
Proof. intros [Hready Hhave]. split; [done|]. by apply Forall_cons in Hhave as [_ ?]. Qed.

Lemma keeps_of_stores {A} have src (m : M unit A) :
  hoare (lists_ready have) m
    (fun r g => match r with
                | inl _ => lists_ready have g
                | inr _ => lists_ready (src :: have) g
                end) ->
  keeps (lists_ready have) m.
Proof.
  intros H l g Hg. specialize (H l g Hg).
  destruct (m l g) as [[[e|a] l'] g']; cbn in *; [done|].
  by eapply lists_ready_tail.
Qed.

(** Each block of a search stores the list of its source. *)
Lemma ready_search_block inp have (from : source) :
  hoare (lists_ready have) (search_block w inp from)
    (fun r g => match r with
                | inl _ => lists_ready have g
                | inr _ => lists_ready (from :: have) g
                end).
Proof.
  destruct from; cbn [search_block].
  - destruct (search_ik inp).
    + apply (hoare_bind _ (fun _ => lists_ready have)); [ready_leaf| |done].
      intros _. apply ready_refetch_ik.
    + apply ready_store; [done | by intros s [] | by eexists].
  - destruct (search_al inp).
    + apply (hoare_bind _ (fun _ => lists_ready have)); [apply keeps_get_attr| |done].
      intros kw.
      apply (hoare_bind _ (fun _ => lists_ready have));
        [apply (ready_fetch have AustLII kw 1)| |done].
      intros r. apply ready_store; [done | by intros s [] | by eexists].
    + apply ready_store; [done | by intros s [] | by eexists].
  - destruct (search_cl inp).
    + apply (hoare_bind _ (fun _ => lists_ready have)); [apply keeps_get_attr| |done].
      intros kw.
      apply (hoare_bind _ (fun _ => lists_ready have));
        [apply (ready_fetch have CanLII kw 1)| |done].
      intros r. apply ready_store; [done | by intros s [] | by eexists].
    + apply ready_store; [done | by intros s [] | by eexists].
  - destruct (search_justia inp).
    + apply (hoare_bind _ (fun _ => lists_ready have)); [ready_leaf| |done].
      intros _. apply ready_refetch_justia.
    + apply ready_store; [done | by intros s [] | by eexists].
Qed.

Lemma ready_on_search inp : keeps (lists_ready []) (on_search w inp).
Proof.
  rewrite on_search_blocks.
  apply keeps_bind; [ready_leaf | intros _].
  apply (hoare_bind _ (fun r g => match r with
                                  | inl _ => lists_ready [] g
                                  | inr _ => lists_ready [IndianKanoon] g
                                  end)); [apply ready_search_block| |done].
  intros _.
  apply (hoare_bind _ (fun r g => match r with
                                  | inl _ => lists_ready [] g
                                  | inr _ => lists_ready [AustLII; IndianKanoon] g
                                  end)).
  { eapply hoare_weaken; [apply ready_search_block | done |].
    intros [e|a] g H; [|done]. by eapply lists_ready_tail. }
  2: done.
  intros _.
  apply (hoare_bind _ (fun r g => match r with
                                  | inl _ => lists_ready [] g
                                  | inr _ => lists_ready [CanLII; AustLII; IndianKanoon] g
                                  end)).
  { eapply hoare_weaken; [apply ready_search_block | done |].
    intros [e|a] g H; [|done]. by do 2 eapply lists_ready_tail. }
  2: done.
  intros _.
  apply (hoare_bind _ (fun r g =>
           match r with
           | inl _ => lists_ready [] g
           | inr _ => lists_ready [Justia; CanLII; AustLII; IndianKanoon] g
           end)).
  { eapply hoare_weaken; [apply ready_search_block | done |].
    intros [e|a] g H; [|done]. by do 3 eapply lists_ready_tail. }
  2: done.
  intros _.
  apply (hoare_bind _ (fun _ => lists_ready [])); [| |done].
  { intros l g [Hready Hhave]. cbn. split; [|done].
    intros _ src. cbn.
    apply Forall_cons in Hhave as [Hj Hhave]. apply Forall_cons in Hhave as [Hc Hhave].
    apply Forall_cons in Hhave as [Ha Hhave]. apply Forall_cons in Hhave as [Hi _].
    by destruct src. }
  intros _. apply keeps_bind; [ready_leaf | intros _; ready_leaf].
Qed.

Lemma ready_display_ik inp : keeps (lists_ready []) (display_ik w inp).
Proof.
  unfold display_ik.
  apply keeps_bind; [apply ready_show_ik | intros _].
  apply keeps_previous.
  - intros g p H _ _. eapply lists_ready_frame; [exact H | done | by intros []].
  - apply keeps_bind; [|intros _; apply ready_show_ik].
    apply (keeps_of_stores [] IndianKanoon), ready_refetch_ik.
  - apply keeps_bind; [apply keeps_get_attr | intros pg].
    apply keeps_bind; [unfold st_ui; ready_leaf | intros _].
    apply keeps_bind; [|intros _; unfold st_ui; ready_leaf].
    apply keeps_when. intros _.
    apply (keeps_read_modify _ ik_page "ik_page" (fun pg => set_ik_page (pg + 1))).
    + intros g p H _. eapply lists_ready_frame; [exact H | done | by intros []].
    + apply keeps_bind; [|intros _; apply ready_show_ik].
      apply (keeps_of_stores [] IndianKanoon), ready_refetch_ik.
Qed.

Lemma ready_display_justia inp : keeps (lists_ready []) (display_justia w inp).
Proof.
  unfold display_justia.
  apply keeps_bind; [unfold st_ui; ready_leaf | intros _].
  apply keeps_bind; [apply ready_show_justia | intros _].
  apply keeps_previous.
  - intros g p H _ _. eapply lists_ready_frame; [exact H | done | by intros []].
  - apply keeps_bind; [|intros _; apply ready_show_justia].
    apply (keeps_of_stores [] Justia), ready_refetch_justia.
  - apply keeps_bind; [apply keeps_get_attr | intros pg].
    apply keeps_bind; [unfold st_ui; ready_leaf | intros _].
    apply keeps_when. intros _.
    apply (keeps_read_modify _ justia_page "justia_page"
             (fun pg => set_justia_page (pg + 1))).
    + intros g p H _. eapply lists_ready_frame; [exact H | done | by intros []].
    + apply keeps_bind; [|intros _; apply ready_show_justia].
      apply (keeps_of_stores [] Justia), ready_refetch_justia.
Qed.

Lemma ready_display_generic field name source_name :
  keeps (lists_ready []) (display_generic field name source_name).
Proof.
  unfold display_generic, st_ui.
  apply keeps_bind; [apply keeps_get_attr | intros rs].
  apply keeps_bind; [ready_leaf | intros _; ready_leaf].
Qed.

Lemma ready_init : keeps (lists_ready []) init_session.
Proof.
  unfold init_session.
  apply (hoare_init_field_then _ (lists_ready [])).
  { intros g H. destruct (keyword (session g)); [done|].
    eapply lists_ready_frame; [exact H | done | by intros []]. }
  apply (hoare_init_field_then _ (lists_ready [])).
  { intros g H. destruct (ik_page (session g)); [done|].
    eapply lists_ready_frame; [exact H | done | by intros []]. }
  apply (hoare_init_field_then _ (lists_ready [])).
  { intros g H. destruct (justia_page (session g)); [done|].
    eapply lists_ready_frame; [exact H | done | by intros []]. }
  apply hoare_init_field.
  intros g H. destruct (results_fetched (session g)); [done|].
  eapply lists_ready_frame; [exact H | done | by intros []].
Qed.

Lemma ready_main inp : keeps (lists_ready []) (main w inp).
Proof.
  unfold main, st_ui.
  apply keeps_bind; [ready_leaf | intros _].
  apply keeps_bind; [ready_leaf | intros _].
  apply keeps_bind; [apply ready_init | intros _].
  apply keeps_bind; [apply keeps_when; intros _; apply ready_on_search | intros _].
  apply keeps_bind; [apply keeps_get_attr | intros fetched].
  apply keeps_when. intros _.
  apply keeps_bind; [apply keeps_when; intros _; apply ready_display_ik | intros _].
  apply keeps_bind; [apply keeps_when; intros _; apply ready_display_generic | intros _].
  apply keeps_bind; [apply keeps_when; intros _; apply ready_display_generic | intros _].
  apply keeps_when. intros _. apply ready_display_justia.
Qed.

End Ready.

(** X12. In every session that reruns of the script can reach, once
    [results_fetched] is true the four result lists are stored: the flag is
    set only after the four blocks of a search have each stored a list, and
    a search aborted by an exception leaves the flag as it was. The display
    code therefore never reads a result list that is missing. *)
Theorem reachable_session_ready (s : session_state) :
  reachable s -> session_ready s.
Proof.
  induction 1 as [|w inp s Hs IH].
  - intros H. discriminate H.
  - unfold run_main.
    assert (H0 : lists_ready [] (mk_mstate s [])) by (split; [exact IH | done]).
    pose proof (ready_main w inp tt (mk_mstate s []) H0) as [Hready _].
    by destruct (main w inp tt (mk_mstate s [])) as [[r l] g].
Qed.

Lemma reachable_session_ready_after_aborted_search :
  let s := (run_main Example.ik_unreachable Example.search_all empty_session).1.2 in
  reachable s /\ session_ready s /\ results_fetched s = Some false.
Proof.
  intros s.
  assert (Hs : reachable s) by (subst s; apply reach_rerun, reach_start).
  split_and!; [exact Hs | exact (reachable_session_ready s Hs) | vm_compute; reflexivity].
Defined.

(** ** Searches that always complete *)

Section Succeeds.

Context {L : Type}.

Lemma succeeds_bind {A B} I R I' (m : M L A) (k : A -> M L B) :
  succeeds I m R -> (forall a, succeeds R (k a) I') -> succeeds I (m ≫= k) I'.
Proof.
  intros Hm Hk l g Hg. destruct (Hm l g Hg) as [[a Ha] HR]. rewrite bind_run.
  destruct (m l g) as [[r l'] g']. cbn in Ha, HR. subst r. by apply Hk.
Qed.

Lemma succeeds_weaken {A} (I I0 I' I0' : session_state -> Prop) (m : M L A) :
  succeeds I0 m I0' -> (forall s, I s -> I0 s) -> (forall s, I0' s -> I' s) ->
  succeeds I m I'.
Proof.
  intros Hm HI HI' l g Hg. destruct (Hm l g (HI _ Hg)) as [Ha H]. auto.
Qed.

Lemma succeeds_ret {A} I (a : A) : succeeds I (ret (L:=L) a) I.
Proof. intros l g Hg. split; [by exists a | done]. Qed.

Lemma succeeds_modify (I I' : session_state -> Prop) f :
  (forall s, I s -> I' (f s)) -> succeeds I (modify_session (L:=L) f) I'.
Proof. intros H l g Hg. split; [by exists tt | by apply H]. Qed.

Lemma succeeds_ui I u : succeeds I (st_ui (L:=L) u) I.
Proof. intros l g Hg. split; [by exists tt | done]. Qed.

Lemma succeeds_get_attr {A} (I : session_state -> Prop)
    (field : session_state -> option A) name :
  (forall s, I s -> is_Some (field s)) -> succeeds I (get_attr (L:=L) field name) I.
Proof.
  intros H l g Hg. destruct (H _ Hg) as [v Hv]. unfold_M. cbn. rewrite Hv. cbn.
  split; [by exists v | done].
Qed.

Lemma succeeds_when I (b : bool) (m : M L unit) :
  succeeds I m I -> succeeds I (when b m) I.
Proof. destruct b; [done | intros _; apply succeeds_ret]. Qed.

Lemma succeeds_format_show (I : session_state -> Prop) f (out : string -> ui_event) :
  (forall s, I s -> I (f s).1) ->
  succeeds I (run_format (L:=L) f ≫= fun text => st_ui (out text)) I.
Proof.
  intros H l g Hg. specialize (H _ Hg). rewrite bind_run. unfold run_format, st_ui.
  unfold_M. destruct (f (session g)) as [s' text]. cbn in *.
  split; [by exists tt | done].
Qed.

Lemma succeeds_init_field {A B} (I I' I'' : session_state -> Prop)
    (field : session_state -> option A) (set : A -> session_state -> session_state)
    (v : A) (rest : M L B) :
  (forall s, I s -> match field s with
                    | None => I' (set v s)
                    | Some _ => I' s
                    end) ->
  succeeds I' rest I'' ->
  succeeds I (get_session ≫= fun s =>
              when (absent (field s)) (modify_session (set v)) ≫= fun _ => rest) I''.
Proof.
  intros H Hrest l g Hg. specialize (H _ Hg). unfold_M. cbn.
  destruct (field (session g)); cbn; by apply Hrest.
Qed.

End Succeeds.

Section JustiaOnly.

Variable w : world.
Variable inp : ui_input.

Hypothesis Hik : search_ik inp = false.
Hypothesis Hal : search_al inp = false.
Hypothesis Hcl : search_cl inp = false.

#[local] Abbreviation done_search := (searched (keyword_input inp)).

Lemma succeeds_fetch_justia I keyword page :
  succeeds I (fetch_justia_search_results w keyword page) I.
Proof.
  intros l g Hg.
  destruct (justia_returns w keyword page l g) as (rs & evs & ->).
  split; [by exists rs | done].
Qed.

Lemma succeeds_refetch_justia (I I' : session_state -> Prop) :
  (forall s, I s -> is_Some (keyword s) /\ is_Some (justia_page s)) ->
  (forall s r, I s -> I' (set_justia_results r s)) ->
  succeeds I (refetch_justia w) I'.
Proof.
  intros Hkeys Hset. unfold refetch_justia.
  eapply succeeds_bind; [apply succeeds_get_attr; intros s Hs; by apply Hkeys|].
  intros kw.
  eapply succeeds_bind; [apply succeeds_get_attr; intros s Hs; by apply Hkeys|].
  intros pg.
  eapply succeeds_bind; [apply succeeds_fetch_justia|].
  intros r. apply succeeds_modify. intros s. apply Hset.
Qed.

Lemma searched_set_justia_results kw r s :
  searched kw s -> searched kw (set_justia_results r s).
Proof.
  intros (Hkw & Hi & Hj & Hf & Hst). unfold searched. cbn.
  split_and!; try done.
  intros src. specialize (Hst src). destruct src; cbn; first [done | by eexists].
Qed.

Lemma searched_set_justia_page kw p s :
  searched kw s -> searched kw (set_justia_page p s).
Proof.
  intros (Hkw & Hi & Hj & Hf & Hst). unfold searched. cbn.
  split_and!; try done; by eexists.
Qed.

Lemma succeeds_show_justia out : succeeds done_search (show_justia out) done_search.
Proof.
  unfold show_justia.
  eapply succeeds_bind;
    [apply succeeds_get_attr; intros s (_ & _ & _ & _ & Hst); apply (Hst Justia)|].
  intros rs.
  eapply succeeds_bind; [apply succeeds_get_attr; by intros s (_ & _ & Hj & _)|].
  intros pg. apply succeeds_format_show. intros s Hs.
  rewrite format_justia_results_session. destruct rs; [done|].
  destruct Hs as (Hkw & Hi & Hj & Hf & Hst). unfold searched. cbn.
  split_and!; try done; by intros [].
Qed.

Lemma succeeds_turn_justia_page (step : Z -> Z) :
  succeeds done_search
    (get_attr justia_page "justia_page" ≫= fun pg =>
     modify_session (set_justia_page (step pg)) ≫= fun _ =>
     refetch_justia w ≫= fun _ =>
     show_justia (UContainerMarkdown JustiaContainer))
    done_search.
Proof.
  eapply succeeds_bind; [apply succeeds_get_attr; by intros s (_ & _ & Hj & _)|].
  intros pg.
  eapply succeeds_bind;
    [apply succeeds_modify; intros s; apply searched_set_justia_page|].
  intros _.
  eapply succeeds_bind; [|intros _; apply succeeds_show_justia].
  apply succeeds_refetch_justia.
  - intros s (Hkw & _ & Hj & _). split; [by eexists | done].
  - intros s r. apply searched_set_justia_results.
Qed.

Lemma succeeds_display_justia :
  succeeds done_search (display_justia w inp) done_search.
Proof.
  unfold display_justia.
  eapply succeeds_bind; [apply succeeds_ui | intros _].
  eapply succeeds_bind; [apply succeeds_show_justia | intros _].
  eapply (succeeds_bind _ done_search).
  { destruct (prev_justia inp); [|apply succeeds_ret].
    eapply succeeds_bind; [apply succeeds_get_attr; by intros s (_ & _ & Hj & _)|].
    intros pg. apply succeeds_ret. }
  intros go_back.
  eapply succeeds_bind;
    [apply succeeds_when, (succeeds_turn_justia_page (fun pg => pg - 1)) | intros _].
  eapply succeeds_bind; [apply succeeds_get_attr; by intros s (_ & _ & Hj & _)|].
  intros pg.
  eapply succeeds_bind; [apply succeeds_ui | intros _].
  apply succeeds_when, (succeeds_turn_justia_page (fun pg => pg + 1)).
Qed.

#[local] Abbreviation started := (search_started (keyword_input inp)).

Lemma succeeds_on_search :
  succeeds (fun s => is_Some (ik_page s) /\ is_Some (justia_page s))
    (on_search w inp) done_search.
Proof.
  rewrite on_search_blocks. cbn [search_block]. rewrite Hik, Hal, Hcl.
  eapply (succeeds_bind _ started).
  { apply succeeds_modify. by intros s [Hi Hj]. }
  intros _.
  eapply (succeeds_bind _ (fun s => started s /\ is_Some (ik_results s))).
  { apply succeeds_modify. intros s Hs. split; [done | by eexists]. }
  intros _.
  eapply (succeeds_bind _ (fun s => started s /\ is_Some (ik_results s) /\
                                     is_Some (austlii_results s))).
  { apply succeeds_modify. intros s [Hs Hi]. split_and!; [done | done | by eexists]. }
  intros _.
  eapply (succeeds_bind _ (fun s => started s /\ is_Some (ik_results s) /\
                                     is_Some (austlii_results s) /\
                                     is_Some (canlii_results s))).
  { apply succeeds_modify. intros s (Hs & Hi & Ha).
    split_and!; [done | done | done | by eexists]. }
  intros _.
  eapply (succeeds_bind _ (fun s => started s /\ forall src, is_Some (stored src s))).
  { destruct (search_justia inp).
    - eapply (succeeds_bind _ (fun s => started s /\ is_Some (ik_results s) /\
                                        is_Some (austlii_results s) /\
                                        is_Some (canlii_results s))).
      { apply succeeds_modify. intros s ((Hkw & Hip & Hjp) & Hi & Ha & Hc).
        unfold search_started. cbn. split_and!; first [done | by eexists]. }
      intros _. apply succeeds_refetch_justia.
      + intros s ((Hkw & Hip & Hjp) & _). split; [by eexists | done].
      + intros s r (Hs & Hi & Ha & Hc). split; [done|].
        by intros []; cbn; [| | |eexists].
    - apply succeeds_modify. intros s (Hs & Hi & Ha & Hc).
      split; [done|]. by intros []; cbn; [| | |eexists]. }
  intros _.
  eapply (succeeds_bind _ done_search).
  { apply succeeds_modify. intros s ((Hkw & Hip & Hjp) & Hst). by split_and!. }
  intros _.
  eapply (succeeds_bind _ done_search).
  { apply succeeds_modify. intros s (Hkw & Hip & Hjp & Hf & Hst). by split_and!. }
  intros _. apply succeeds_modify. intros s (Hkw & Hip & Hjp & Hf & Hst). by split_and!.
Qed.

End JustiaOnly.

Lemma succeeds_init_last {L A} (I I' : session_state -> Prop)
    (field : session_state -> option A) (set : A -> session_state -> session_state)
    (v : A) :
  (forall s, I s -> match field s with
                    | None => I' (set v s)
                    | Some _ => I' s
                    end) ->
  succeeds I (get_session (L:=L) ≫= fun s =>
              when (absent (field s)) (modify_session (set v))) I'.
Proof.
  intros H l g Hg. specialize (H _ Hg). unfold_M. cbn.
  destruct (field (session g)); cbn; (split; [by exists tt | done]).
Qed.

Lemma succeeds_init_session :
  succeeds (fun _ => True) init_session
    (fun s => is_Some (ik_page s) /\ is_Some (justia_page s)).
Proof.
  unfold init_session.
  apply (succeeds_init_field _ (fun _ => True)).
  { intros s _. by destruct (keyword s). }
  apply (succeeds_init_field _ (fun s => is_Some (ik_page s))).
  { intros s _. destruct (ik_page s) eqn:Hp; cbn; by eexists. }
  apply (succeeds_init_field _ (fun s => is_Some (ik_page s) /\ is_Some (justia_page s))).
  { intros s Hi. destruct (justia_page s) eqn:Hp; cbn; (split; [done | by eexists]). }
  apply succeeds_init_last. intros s H. by destruct (results_fetched s).
Qed.

(** X13. A search in which no source but Justia is enabled always
    completes: whatever the browser driver does, and whichever Justia
    buttons are clicked, the run ends without an exception, with the
    keyword stored, the four result lists stored and [results_fetched]
    set. (A failure of Justia is caught in its routine; it never stops the
    run.) *)
Theorem justia_only_search_completes (w : world) (inp : ui_input) (s : session_state) :
  search_button inp = true ->
  search_ik inp = false ->
  search_al inp = false ->
  search_cl inp = false ->
  (run_main w inp s).1.1 = inr tt /\
  searched (keyword_input inp) (run_main w inp s).1.2.
Proof.
  intros Hsearch Hik Hal Hcl.
  assert (Hmain : succeeds (fun _ => True) (main w inp) (searched (keyword_input inp))).
  { unfold main. rewrite Hsearch, Hik, Hal, Hcl. cbn [when].
    eapply succeeds_bind; [apply succeeds_ui | intros _].
    eapply succeeds_bind; [apply succeeds_ui | intros _].
    eapply succeeds_bind; [apply succeeds_init_session | intros _].
    eapply succeeds_bind; [by apply succeeds_on_search | intros _].
    eapply succeeds_bind; [apply succeeds_get_attr|].
    { intros s0 (_ & _ & _ & Hf & _). by eexists. }
    intros fetched. apply succeeds_when.
    eapply succeeds_bind; [apply succeeds_ret | intros _].
    eapply succeeds_bind; [apply succeeds_ret | intros _].
    eapply succeeds_bind; [apply succeeds_ret | intros _].
    apply succeeds_when, succeeds_display_justia. }
  unfold run_main. destruct (Hmain tt (mk_mstate s []) I) as [[[] Ha] Hdone].
  destruct (main w inp tt (mk_mstate s [])) as [[r l] g]. cbn in *. by subst.
Qed.

Lemma justia_only_search_completes_offline :
  let inp := mk_input false false false true Example.kw true false false false true in
  search_button inp = true /\ search_ik inp = false /\ search_al inp = false /\
  search_cl inp = false /\
  (run_main Example.offline inp empty_session).1.1 = inr tt /\
  searched (keyword_input inp) (run_main Example.offline inp empty_session).1.2.
Proof.
  intros inp.
  destruct (justia_only_search_completes Example.offline inp empty_session
              eq_refl eq_refl eq_refl eq_refl) as [Hr Hs].
  split_and!; [reflexivity | reflexivity | reflexivity | reflexivity | exact Hr | exact Hs].
Defined.
